(** * socketio-signaler: the signalling relay and the client orchestrator

    A shallow embedding of the two halves of the signalling protocol:

    - [Relay]: the room-scoped relay, the module the server requires as
      [./signaler] (the registry [clients], [findSocket], [getUserIds],
      [removeUser] and the handlers bound by [start]);
    - [Client]: the browser-side orchestrator [SignallerPeerConnection]
      (the peer table [peerConnections] and every method that reads or
      writes it).

    JavaScript arrays are lists, read with stdpp's [!!] and spliced with
    [delete]; everything the code sends, emits, logs or asks of the
    browser is recorded, in program order, in a list of effects. *)

From stdpp Require Import base list strings pretty gmap.
From Stdlib Require Import Lia.

Set Default Proof Using "Type".

(** ** JavaScript values and idioms shared by both programs *)

Module JS.

(** The values that reach a [suppress] parameter or [options.debug]. *)
Inductive value :=
| undefined
| boolean (b : bool)
| number (n : nat)
| str (s : string).

(** ToBoolean. *)
Definition truthy (v : value) : bool :=
  match v with
  | undefined => false
  | boolean b => b
  | number n => negb (Nat.eqb n 0)
  | str s => negb (String.eqb s "")
  end.

(** [a && b]. *)
Definition and (a b : value) : value := if truthy a then b else a.

(** [options.debug === 'verbose']. *)
Definition is_verbose (v : value) : bool :=
  match v with
  | str s => String.eqb s "verbose"
  | _ => false
  end.

(** [arr.forEach(function (x, index, arr) { if (matches x) arr.splice(index, 1) })].
    [forEach] reads the length once ([len]) and then visits the indices
    [k], [k+1], ... below it, skipping an index that is no longer in the
    array; the splice shifts the tail left while the visit goes on.
    Returns the array left and the elements spliced out, in order. *)
Fixpoint forEach_splice {A} (matches : A → bool) (len k : nat) (arr : list A)
  : list A * list A :=
  match len with
  | 0 => (arr, [])
  | S len' =>
      match arr !! k with
      | Some x =>
          if matches x
          then let '(arr', out) := forEach_splice matches len' (S k) (delete k arr)
               in (arr', x :: out)
          else forEach_splice matches len' (S k) arr
      | None => forEach_splice matches len' (S k) arr
      end
  end.

End JS.

(** ** Messages on the wire *)

Module Wire.

(** A session description is opaque to the signalling layer. *)
Definition sdp := string.

(** [RTCIceCandidate]: the object under [event.candidate]. *)
Record RTCIceCandidate := { candidate : string; sdpMLineIndex : nat }.

(** The event the browser hands to [onicecandidate]; its [candidate] is
    null at the end of gathering. *)
Record ice_event := { event_candidate : option RTCIceCandidate }.

(** Client to relay. [data.candidate] of [icecandidate] is whatever the
    sender put there: [None] is a missing field. *)
Inductive to_relay :=
| list_request
| offer (target : string) (offer : sdp)
| answer (target : string) (answer : sdp)
| peerconnected (id : string)
| icecandidate (target : string) (data_candidate : option ice_event)
| streamremoved (target : string).

(** Relay to client. *)
Inductive to_client :=
| initialized
| list_reply (ids : list string)
| newconnection (id : string)
| offer_from (sender : string) (offer : sdp)
| answer_from (sender : string) (answer : sdp)
| peerconnected_from (sender : string)
| icecandidate_from (sender : string) (data_candidate : option ice_event)
| streamremoved_from (sender : string)
| disconnect (id : string).

End Wire.

(** ** The relay *)

Module Relay.
Import Wire.

(** A socket.io socket, as far as the relay reads it. *)
Record socket := Socket { id : string }.

(** The object returned by [module.exports]: [roomName] and [clients]
    are its only data. *)
Record signaller := Signaller { roomName : string; clients : list socket }.

Inductive effect :=
| emit (to : socket) (m : to_client)                    (* socket.emit / recipient.emit *)
| broadcast (from : socket) (room : string) (m : to_client) (* socket.broadcast.to(room).emit *)
| room_emit (m : to_client)                             (* this.room.room.emit *)
| join (s : socket) (room : string)                     (* socket.join *)
| console_log (msg : string).

(** What socket.io delivers to the handlers bound in [start]. *)
Inductive event :=
| connection (s : socket)
| message (this : socket) (m : to_relay)
| close (this : socket).                                (* 'disconnect' *)

Section Signaller.
(** [options.debug]. *)
Variable debug : JS.value.

Definition log (msg : string) : list effect :=
  if JS.truthy debug then [console_log msg] else [].

Definition log_verbose (msg : string) : list effect :=
  if JS.truthy debug && JS.is_verbose debug then [console_log msg] else [].

(** [findSocket]: [false] is [None]; a later match overwrites an
    earlier one. *)
Definition findSocket (clients : list socket) (i : string) : option socket :=
  fold_left (λ foundClient client,
              if String.eqb (id client) i then Some client else foundClient)
            clients None.

(** [getUserIds]. *)
Definition getUserIds (clients : list socket) (currentId : string) : list string :=
  fold_left (λ ids client,
              if negb (String.eqb (id client) currentId)
              then ids ++ [id client] else ids)
            clients [].

(** [removeUser]. *)
Definition removeUser (sg : signaller) (i : string) : signaller * list effect :=
  let '(clients', gone) :=
    JS.forEach_splice (λ client, String.eqb (id client) i)
                      (length (clients sg)) 0 (clients sg) in
  (Signaller (roomName sg) clients',
   flat_map (λ client, log ("Signaller: user " +:+ id client +:+ " disconnected")) gone).

(** The body of the ['connection'] handler, up to the handler
    registrations. *)
Definition on_connection (sg : signaller) (s : socket) : signaller * list effect :=
  (Signaller (roomName sg) (clients sg ++ [s]),
   [join s (roomName sg);
    emit s initialized;
    broadcast s (roomName sg) (newconnection (id s))]
   ++ log ("Signaller: user " +:+ id s +:+ " connected")).

(** The forwarding pattern shared by the targeted handlers. *)
Definition on_message (sg : signaller) (this : socket) (m : to_relay)
  : signaller * list effect :=
  match m with
  | list_request =>
      (sg, emit this (list_reply (getUserIds (clients sg) (id this)))
           :: log "Signaller: user list sent")
  | offer target o =>
      match findSocket (clients sg) target with
      | Some recipient =>
          (sg, emit recipient (offer_from (id this) o)
               :: log ("Signaller: user " +:+ id this +:+ " sent offer to " +:+ id recipient))
      | None => (sg, [])
      end
  | answer target a =>
      match findSocket (clients sg) target with
      | Some recipient =>
          (sg, emit recipient (answer_from (id this) a)
               :: log ("Signaller: user " +:+ id this +:+ " sent answer to " +:+ id recipient))
      | None => (sg, [])
      end
  | peerconnected i =>
      match findSocket (clients sg) i with
      | Some recipient =>
          (sg, log ("Signaller: user " +:+ i +:+ " connected with user " +:+ id this)
               ++ [emit recipient (peerconnected_from (id this))])
      | None => (sg, [])
      end
  | icecandidate target c =>
      match findSocket (clients sg) target with
      | Some recipient =>
          (sg, log_verbose ("Sending ice candidate from " +:+ id this +:+ " to " +:+ target)
               ++ [emit recipient (icecandidate_from (id this) c)])
      | None => (sg, log "Recipient not found!")
      end
  | streamremoved target =>
      match findSocket (clients sg) target with
      | Some recipient =>
          (sg, log ("Sending streamremoved from " +:+ id this +:+ " to " +:+ target)
               ++ [emit recipient (streamremoved_from (id this))])
      | None => (sg, [])
      end
  end.

(** The ['disconnect'] handler. *)
Definition on_close (sg : signaller) (this : socket) : signaller * list effect :=
  let '(sg', out) := removeUser sg (id this) in
  (sg', out ++ [room_emit (disconnect (id this))]).

Definition step (sg : signaller) (e : event) : signaller * list effect :=
  match e with
  | connection s => on_connection sg s
  | message this m => on_message sg this m
  | close this => on_close sg this
  end.

(** The relay after a run of events, from the state [module.exports]
    returns ([clients: []]). *)
Definition run (room : string) (es : list event) : signaller :=
  fold_left (λ sg e, fst (step sg e)) es (Signaller room []).

(** The sockets that joined during a run, in join order. *)
Definition joined (es : list event) : list socket :=
  flat_map (λ e, match e with connection s => [s] | _ => [] end) es.

(** The membership of the room after a run, as the specification
    has it: a connection joins, a disconnect leaves; in join order. *)
Definition members (es : list event) : list socket :=
  fold_left (λ ms e,
              match e with
              | connection s => ms ++ [s]
              | close this => filter (λ c, id c ≠ id this) ms
              | message _ _ => ms
              end) es [].

(** A socket is present after a run: it has connected, and no socket
    with its id has disconnected since. *)
Definition present (s : socket) (es : list event) : Prop :=
  ∃ es1 es2, es = es1 ++ connection s :: es2
             ∧ ∀ this, close this ∈ es2 → id this ≠ id s.

(** The identifier a routed message is addressed to. *)
Definition target_of (m : to_relay) : option string :=
  match m with
  | list_request => None
  | offer target _ | answer target _ | icecandidate target _
  | streamremoved target | peerconnected target => Some target
  end.

(** What reaches a client: everything but the console. *)
Definition is_delivery (e : effect) : bool :=
  match e with
  | console_log _ => false
  | _ => true
  end.

(** How many entries of the registry carry an identifier. *)
Definition entries (i : string) (cs : list socket) : nat :=
  length (List.filter (λ c, String.eqb (id c) i) cs).

End Signaller.
End Relay.

(** ** The client orchestrator [SignallerPeerConnection] *)

Module Client.

(** A [MediaStream] or data channel object, by identity. *)
Definition MediaStream := nat.
Definition DataChannel := nat.

(** An [RTCPeerConnection] object, as far as the orchestrator reads or
    writes it: [serial] is its identity (it is the [serial]-th object
    constructed), [getRemoteStreams] is what the method of that name
    returns, [handlers] is [Some suppress] once [bindConnectionEvents]
    has assigned [onicecandidate], [onaddstream] and [ondatachannel],
    [suppress] being the variable their closures captured (their [peer]
    is the entry that owns the object). *)
Record RTCPeerConnection := PeerConnection {
  serial : nat;
  getRemoteStreams : list MediaStream;
  handlers : option JS.value
}.

(** An element of [this.peerConnections]. *)
Record peer := Peer { connection : RTCPeerConnection; id : string }.

(** [this]: [allocated] counts the [new this.PeerConnection] calls so
    far. *)
Record SignallerPeerConnection := State {
  peerConnections : list peer;
  localStream : option MediaStream;
  allocated : nat
}.

(** The callbacks handed to the asynchronous methods of a connection;
    [invoke] below runs their bodies. *)
Inductive callback :=
| offer_created         (* createOffer, success *)
| remote_offer_set      (* setRemoteDescription in createAnswer, success *)
| answer_created        (* createAnswer, success *)
| remote_answer_set     (* setRemoteDescription in handleAnswer, success *)
| logError_callback.

Inductive rtc_call :=
| construct
| addStream_call (stream : MediaStream)
| createOffer_call (success failure : callback)
| createAnswer_call (success failure : callback)
| setLocalDescription (d : Wire.sdp) (failure : callback)
| setRemoteDescription (d : Wire.sdp) (success failure : callback)
| addIceCandidate (c : Wire.RTCIceCandidate)
| close_call.

(** What [this.emit] publishes to application code. *)
Inductive notification :=
| remoteStreamAdded (stream : MediaStream) (peer : string)
| dataChannelAdded (channel : DataChannel) (peer : string)
| peerconnected (id : string)
| peerDisconnected (id : string)
| remoteStreamRemoved (id : string)
| localStreamAdded (stream : MediaStream)
| localStreamRemoved.

Inductive effect :=
| socket_emit (m : Wire.to_relay)            (* this.socket.emit *)
| emit (n : notification)                    (* this.emit *)
| rtc (connection : nat) (c : rtc_call)      (* a method of the connection with that serial *)
| getUserMedia                               (* success: gotUserMedia, failure: logError *)
| stop (stream : MediaStream)                (* this.localStream.stop() *)
| console_log (msg : string)
| console_error (msg : string).

(** A method either returns, or throws a TypeError by reading a property
    of [undefined]; both keep the state and the effects so far. *)
Inductive outcome (A : Type) :=
| returned (a : A) (s : SignallerPeerConnection) (out : list effect)
| thrown (s : SignallerPeerConnection) (out : list effect).
Arguments returned {A}.
Arguments thrown {A}.

Definition state_of {A} (o : outcome A) : SignallerPeerConnection :=
  match o with returned _ s _ | thrown s _ => s end.

Definition effects_of {A} (o : outcome A) : list effect :=
  match o with returned _ _ out | thrown _ out => out end.

Definition M (A : Type) : Type := SignallerPeerConnection → outcome A.

#[global] Instance M_ret : MRet M := λ A a s, returned a s [].

#[global] Instance M_bind : MBind M := λ A B f m s,
  match m s with
  | returned a s1 out1 =>
      match f a s1 with
      | returned b s2 out2 => returned b s2 (out1 ++ out2)
      | thrown s2 out2 => thrown s2 (out1 ++ out2)
      end
  | thrown s1 out1 => thrown s1 out1
  end.

Definition tell (out : list effect) : M unit := λ s, returned tt s out.
Definition get : M SignallerPeerConnection := λ s, returned s s [].
Definition modify (f : SignallerPeerConnection → SignallerPeerConnection) : M unit :=
  λ s, returned tt (f s) [].
Definition throw {A} : M A := λ s, thrown s [].

(** A reference to an element of [this.peerConnections] is its index;
    [None] is [undefined]. Reading a property through it throws when
    there is no such object. *)
Definition deref (r : option nat) : M peer := λ s,
  match r ≫= (peerConnections s !!.) with
  | Some peer => returned peer s []
  | None => thrown s []
  end.

(** Writing through a reference: the object at that index changes in
    place. *)
Definition assign (r : option nat) (p : peer) : M unit := λ s,
  match r with
  | Some k => returned tt (State (<[k := p]> (peerConnections s)) (localStream s) (allocated s)) []
  | None => thrown s []
  end.

(** [this.peerConnections.push(peer)]; returns where the object is. *)
Definition push (p : peer) : M (option nat) := λ s,
  returned (Some (length (peerConnections s)))
           (State (peerConnections s ++ [p]) (localStream s) (allocated s)) [].

(** [new this.PeerConnection(this.iceServers)]. *)
Definition new_PeerConnection : M RTCPeerConnection := λ s,
  returned (PeerConnection (allocated s) [] None)
           (State (peerConnections s) (localStream s) (S (allocated s)))
           [rtc (allocated s) construct].

(** [arr.forEach(f)] where [f] reads the element only. *)
Fixpoint forEach {A} (f : A → M unit) (arr : list A) : M unit :=
  match arr with
  | [] => mret tt
  | x :: rest => f x;; forEach f rest
  end.

(** [arr.forEach(f)] where [f] also takes the index. *)
Fixpoint forEach_indexed {A} (f : A → nat → M unit) (arr : list A) (index : nat) : M unit :=
  match arr with
  | [] => mret tt
  | x :: rest => f x index;; forEach_indexed f rest (S index)
  end.

(** [hasPeer]. *)
Definition hasPeer (peers : list peer) (i : string) : bool :=
  fold_left (λ foundPeer peer, if String.eqb (id peer) i then true else foundPeer)
            peers false.

(** The scan of [getPeer]: the index of the last element whose id
    matches, [found] so far, [k] the index of the head. *)
Fixpoint find_peer (peers : list peer) (i : string) (k : nat) (found : option nat)
  : option nat :=
  match peers with
  | [] => found
  | peer :: rest =>
      find_peer rest i (S k) (if String.eqb (id peer) i then Some k else found)
  end.

Section Orchestrator.
(** [options.debug], after [generateDefaults]. *)
Variable debug : JS.value.

(** [if (options.debug) console.log(msg)]. *)
Definition console (msg : string) : list effect :=
  if JS.truthy debug then [console_log msg] else [].

Definition log (msg : string) : M unit := tell (console msg).

(** [if (options.debug && options.debug === 'verbose') console.log(msg)]. *)
Definition log_verbose (msg : string) : M unit :=
  tell (if JS.truthy debug && JS.is_verbose debug then [console_log msg] else []).

(** [logError]. *)
Definition logError (error : string) : M unit :=
  tell [console_error (if JS.truthy debug then error
                       else "There was an error with the signaller")].

(** [getPeerList]. *)
Definition getPeerList : M unit := tell [socket_emit Wire.list_request].

(** [bindConnectionEvents]: assigns the three handlers on
    [peer.connection] and returns [peer]. *)
Definition bindConnectionEvents (p : peer) (suppress : JS.value) : M peer :=
  log ("Binding connection events for peer: " +:+ id p);;
  mret (Peer (PeerConnection (serial (connection p))
                             (getRemoteStreams (connection p))
                             (Some suppress))
             (id p)).

(** [sendOffer]. *)
Definition sendOffer (target : string) (offer : Wire.sdp) : M unit :=
  log ("Sending offer to " +:+ target);;
  tell [socket_emit (Wire.offer target offer)].

(** [createOffer]: the offer itself is sent by the success callback. *)
Definition createOffer (p : peer) : M unit :=
  log ("Creating offer for: " +:+ id p);;
  tell [rtc (serial (connection p)) (createOffer_call offer_created logError_callback)].

(** [sendAnswer]. *)
Definition sendAnswer (target : string) (answer : Wire.sdp) : M unit :=
  log ("Sent answer to peer: " +:+ target);;
  tell [socket_emit (Wire.answer target answer)].

(** [peerConnected]. *)
Definition peerConnected (i : string) : M unit :=
  tell [emit (peerconnected i)];;
  log ("Signaling with peer: " +:+ i).

(** [addStreamToPeer]. *)
Definition addStreamToPeer (stream : MediaStream) (p : peer) : M unit :=
  log ("Stream added to " +:+ id p);;
  tell [rtc (serial (connection p)) (addStream_call stream)];;
  createOffer p.

(** [addPeer]: returns the new peer, or [undefined] when the id is
    already in the table. *)
Definition addPeer (i : string) (suppress : JS.value) : M (option nat) :=
  s ← get;
  if negb (hasPeer (peerConnections s) i) then
    tell [console_log ("Adding peer: " +:+ i)];;
    connection ← new_PeerConnection;
    peer ← bindConnectionEvents (Peer connection i) suppress;
    r ← push peer;
    s ← get;
    match localStream s with
    | Some stream => addStreamToPeer stream peer
    | None => mret tt
    end;;
    mret r
  else mret None.

(** [generateConnections]: [forEach] hands [addPeer] the element, its
    index and the array. *)
Definition generateConnections (peers : list string) : M unit :=
  log ("Received list, creating connection(s) for " +:+ pretty (length peers) +:+ " peers");;
  forEach_indexed (λ i index, addPeer i (JS.number index);; mret tt) peers 0.

(** [getPeer]. *)
Definition getPeer (i : string) : M (option nat) :=
  s ← get;
  match find_peer (peerConnections s) i 0 None with
  | Some k => mret (Some k)
  | None => addPeer i JS.undefined
  end.

(** [createAnswer]. *)
Definition createAnswer (sender : string) (offer : Wire.sdp) : M unit :=
  r ← getPeer sender;
  peer ← deref r;
  log ("Creating answer for " +:+ id peer);;
  tell [rtc (serial (connection peer))
            (setRemoteDescription offer remote_offer_set logError_callback)].

(** [handleAnswer]. *)
Definition handleAnswer (sender : string) (answer : Wire.sdp) : M unit :=
  r ← getPeer sender;
  peer ← deref r;
  log ("Handling answer from: " +:+ id peer);;
  tell [rtc (serial (connection peer))
            (setRemoteDescription answer remote_answer_set logError_callback)].

(** [disconnectConnection]. *)
Definition disconnectConnection (i : string) : M unit :=
  r ← getPeer i;
  peer ← deref r;
  tell [rtc (serial (connection peer)) close_call];;
  tell [emit (peerDisconnected i)];;
  tell [emit (remoteStreamRemoved i)];;
  log ("Disconnected with peer: " +:+ i);;
  modify (λ s, State (JS.forEach_splice (λ peer, String.eqb (id peer) i)
                        (length (peerConnections s)) 0 (peerConnections s)).1
                     (localStream s) (allocated s)).

(** [addStream]. *)
Definition addStream (stream : MediaStream) : M unit :=
  s ← get;
  forEach (addStreamToPeer stream) (peerConnections s).

(** [addLocalStream]: [opts.audio || true] and [opts.video || true]
    are truthy whatever [opts] is. *)
Definition addLocalStream : M unit :=
  tell [getUserMedia].

(** The success callback of [getUserMedia]. *)
Definition gotUserMedia (stream : MediaStream) : M unit :=
  modify (λ s, State (peerConnections s) (Some stream) (allocated s));;
  addStream stream;;
  tell [emit (localStreamAdded stream)];;
  log "Local stream added".

(** [regenStream]. *)
Definition regenStream (r : option nat) (suppress : JS.value) : M unit :=
  peer ← deref r;
  log ("Regenerating PeerConnection for " +:+ id peer);;
  let suppress :=
    JS.and suppress (JS.number (length (getRemoteStreams (connection peer)))) in
  connection ← new_PeerConnection;
  assign r (Peer connection (id peer));;
  peer ← bindConnectionEvents (Peer connection (id peer)) suppress;
  assign r peer;;
  s ← get;
  match localStream s with
  | Some stream => addStreamToPeer stream peer
  | None => mret tt
  end.

(** The function [removeLocalStream] hands to [forEach]; [index] is
    where the [peer] it is given sits in the table. *)
Definition remove_from : peer → nat → M unit :=
  λ _ index,
    peer ← deref (Some index);
    log ("Local stream removed from " +:+ id peer);;
    tell [socket_emit (Wire.streamremoved (id peer))];;
    regenStream (Some index) (JS.boolean true).

(** [removeLocalStream]. *)
Definition removeLocalStream : M unit :=
  s ← get;
  match localStream s with
  | None => throw
  | Some stream =>
      tell [stop stream];;
      modify (λ s, State (peerConnections s) None (allocated s));;
      forEach_indexed remove_from (peerConnections s) 0;;
      tell [emit localStreamRemoved]
  end.

(** [removeRemoteStream]. *)
Definition removeRemoteStream (i : string) : M unit :=
  tell [emit (remoteStreamRemoved i)];;
  log ("Removing stream from: " +:+ i);;
  r ← getPeer i;
  regenStream r JS.undefined.

(** What arrives as [data] at [receiveIceCandidate]. *)
Record ice_data := { sender : string; data_candidate : option Wire.ice_event }.

(** [receiveIceCandidate]: the guard is
    [data && data.candidate && data.candidate.candidate &&
     data.candidate.candidate.candidate]. *)
Definition receiveIceCandidate (data : option ice_data) : M unit :=
  match data with
  | Some data =>
      match data_candidate data ≫= Wire.event_candidate with
      | Some c =>
          if negb (String.eqb (Wire.candidate c) "") then
            r ← getPeer (sender data);
            peer ← deref r;
            log_verbose ("Added ICE candidate from " +:+ id peer);;
            tell [rtc (serial (connection peer)) (addIceCandidate c)]
          else mret tt
      | None => mret tt
      end
  | None => mret tt
  end.

(** The handlers bound by [bindEvents]. *)
Definition on_message (m : Wire.to_client) : M unit :=
  match m with
  | Wire.initialized => getPeerList
  | Wire.list_reply peers => generateConnections peers
  | Wire.offer_from sender offer => createAnswer sender offer
  | Wire.answer_from sender answer => handleAnswer sender answer
  | Wire.icecandidate_from sender c => receiveIceCandidate (Some (Build_ice_data sender c))
  | Wire.newconnection i => addPeer i JS.undefined;; mret tt
  | Wire.disconnect i => disconnectConnection i
  | Wire.peerconnected_from i => peerConnected i
  | Wire.streamremoved_from i => removeRemoteStream i
  end.

(** The bodies of the callbacks; [p] is the [peer] their closure
    holds, as it is when the browser calls back, [d] the description
    the browser passes (unused by the two [setRemoteDescription]
    callbacks). In [setLocalDescription(desc, this.sendOffer(..), ..)]
    the send is an argument, evaluated before the call. *)
Definition invoke (cb : callback) (p : peer) (d : Wire.sdp) : M unit :=
  match cb with
  | offer_created =>
      sendOffer (id p) d;;
      tell [rtc (serial (connection p)) (setLocalDescription d logError_callback)]
  | remote_offer_set =>
      tell [rtc (serial (connection p)) (createAnswer_call answer_created logError_callback)]
  | answer_created =>
      sendAnswer (id p) d;;
      tell [rtc (serial (connection p)) (setLocalDescription d logError_callback)]
  | remote_answer_set =>
      peerConnected (id p);;
      tell [socket_emit (Wire.peerconnected (id p))]
  | logError_callback => logError d
  end.

(** What the browser raises on a connection. *)
Inductive rtc_event :=
| icecandidate_event (e : Wire.ice_event)
| addstream_event (stream : MediaStream)
| datachannel_event (channel : DataChannel).

(** The handlers assigned by [bindConnectionEvents], run on the
    connection of [p]; a connection without handlers ignores the
    event. *)
Definition fire (p : peer) (e : rtc_event) : M unit :=
  match handlers (connection p) with
  | None => mret tt
  | Some suppress =>
      match e with
      | icecandidate_event c =>
          log_verbose ("Sending ICE candidate to " +:+ id p);;
          tell [socket_emit (Wire.icecandidate (id p) (Some c))]
      | addstream_event stream =>
          log ("Remote stream added from " +:+ id p);;
          if negb (JS.truthy suppress)
          then tell [emit (remoteStreamAdded stream (id p))]
          else log "onaddstream event suppressed"
      | datachannel_event channel =>
          log ("Data channel added from " +:+ id p);;
          tell [emit (dataChannelAdded channel (id p))]
      end
  end.

(** What the browser does on its own to a connection of the table:
    the streams [getRemoteStreams] returns change. *)
Definition remote_streams_changed (r : option nat) (streams : list MediaStream)
  : M unit :=
  peer ← deref r;
  assign r (Peer (PeerConnection (serial (connection peer)) streams
                                 (handlers (connection peer)))
                 (id peer)).

(** Every way into the orchestrator: a message from the relay, a
    method called directly, a callback or an event from the browser. *)
Inductive operation :=
| op_receive (m : Wire.to_client)
| op_remote_streams (r : option nat) (streams : list MediaStream)
| op_addPeer (i : string) (suppress : JS.value)
| op_getPeer (i : string)
| op_generateConnections (peers : list string)
| op_createAnswer (sender : string) (offer : Wire.sdp)
| op_handleAnswer (sender : string) (answer : Wire.sdp)
| op_receiveIceCandidate (data : option ice_data)
| op_disconnectConnection (i : string)
| op_peerConnected (i : string)
| op_getPeerList
| op_removeRemoteStream (i : string)
| op_addLocalStream
| op_gotUserMedia (stream : MediaStream)
| op_removeLocalStream
| op_invoke (cb : callback) (p : peer) (d : Wire.sdp)
| op_fire (p : peer) (e : rtc_event).

Definition perform (o : operation) : M unit :=
  match o with
  | op_receive m => on_message m
  | op_remote_streams r streams => remote_streams_changed r streams
  | op_addPeer i suppress => addPeer i suppress;; mret tt
  | op_getPeer i => getPeer i;; mret tt
  | op_generateConnections peers => generateConnections peers
  | op_createAnswer sender offer => createAnswer sender offer
  | op_handleAnswer sender answer => handleAnswer sender answer
  | op_receiveIceCandidate data => receiveIceCandidate data
  | op_disconnectConnection i => disconnectConnection i
  | op_peerConnected i => peerConnected i
  | op_getPeerList => getPeerList
  | op_removeRemoteStream i => removeRemoteStream i
  | op_addLocalStream => addLocalStream
  | op_gotUserMedia stream => gotUserMedia stream
  | op_removeLocalStream => removeLocalStream
  | op_invoke cb p d => invoke cb p d
  | op_fire p e => fire p e
  end.

(** The state after a run of operations. *)
Definition run (os : list operation) (s : SignallerPeerConnection)
  : SignallerPeerConnection :=
  fold_left (λ s o, state_of (perform o s)) os s.

End Orchestrator.

(** The entry [addPeer] pushes: a connection just constructed, with
    the handlers bound. *)
Definition fresh_peer (serial : nat) (suppress : JS.value) (i : string) : peer :=
  Peer (PeerConnection serial [] (Some suppress)) i.

(** The entry [regenStream] leaves in place of [p]: same id, a
    connection just constructed, the handlers bound with
    [suppress && peer.connection.getRemoteStreams().length] read off the
    connection being replaced. *)
Definition regenerated (suppress : JS.value) (serial : nat) (p : peer) : peer :=
  fresh_peer serial
             (JS.and suppress (JS.number (length (getRemoteStreams (connection p)))))
             (id p).

(** Every connection in the table was constructed by this orchestrator. *)
Definition well_allocated (s : SignallerPeerConnection) : Prop :=
  ∀ p, p ∈ peerConnections s → serial (connection p) < allocated s.

(** The table of a freshly constructed orchestrator. *)
Definition initial : SignallerPeerConnection := State [] None 0.

(** The ids of the table, in order. *)
Definition ids (s : SignallerPeerConnection) : list string := id <$> peerConnections s.

(** The notifications among the effects, in order. *)
Definition notifications (out : list effect) : list notification :=
  flat_map (λ e, match e with emit n => [n] | _ => [] end) out.

(** The messages sent to the relay among the effects, in order. *)
Definition sent (out : list effect) : list Wire.to_relay :=
  flat_map (λ e, match e with socket_emit m => [m] | _ => [] end) out.

(** The calls made on the connection with a given serial, in order. *)
Definition calls (n : nat) (out : list effect) : list rtc_call :=
  flat_map (λ e, match e with
                 | rtc n' c => if Nat.eqb n' n then [c] else []
                 | _ => []
                 end) out.

(** A relation between the state before and after, kept by [≫=]. *)
Definition relates {A} (R : relation SignallerPeerConnection) (m : M A) : Prop :=
  ∀ s, R s (state_of (m s)).

(** The ids of the table stay as they are. *)
Definition same_ids : relation SignallerPeerConnection :=
  λ s s', ids s' = ids s.

(** The table invariant is kept. *)
Definition keeps_NoDup : relation SignallerPeerConnection :=
  λ s s', NoDup (ids s) → NoDup (ids s').

(** The allocation invariant is kept. *)
Definition keeps_allocated : relation SignallerPeerConnection :=
  λ s s', well_allocated s → well_allocated s'.

End Client.

(** ** The event emitter behind [this.emit], [on] and [once]

    Event selectors are names; the RegExp form of [evt] is left out.
    Names range over the strings that the [_events] object does not
    inherit from [Object.prototype], so that [events[evt]] is the own
    property. A listener function is its identity; what it does when
    called is its return value, which depends on the function and the
    arguments only: it does not call back into the emitter. *)

Module Emitter.

(** A listener function. *)
Definition fn := nat.

(** A listener object, the element of the arrays under [_events]. *)
Record entry := Entry { listener : fn; once : bool }.

(** What [addListener] and [indexOfListener] are handed as [listener]:
    a function, or a listener object ([typeof listener === 'object']). *)
Inductive handler :=
| function (f : fn)
| wrapped (e : entry).

(** [this]: a missing [_events] is the empty object [_getEvents] would
    put there; [_onceReturnValue] is [None] when the property is not
    set. *)
Record EventEmitter := Emitter {
  _events : gmap string (list entry);
  _onceReturnValue : option JS.value
}.

#[global] Instance value_eq_dec : EqDecision JS.value.
Proof. solve_decision. Defined.

(** [listeners[i].listener === listener]: a function is never identical
    to a listener object. *)
Definition is_listener (e : entry) (l : handler) : bool :=
  match l with
  | function f => Nat.eqb (listener e) f
  | wrapped _ => false
  end.

(** The loop of [indexOfListener], [i] counting down from the length;
    [None] is [-1]. An index below the length always holds an entry. *)
Fixpoint indexOfListener_loop (i : nat) (listeners : list entry) (l : handler)
  : option nat :=
  match i with
  | 0 => None
  | S i =>
      match listeners !! i with
      | Some e => if is_listener e l then Some i else indexOfListener_loop i listeners l
      | None => None
      end
  end.

(** [indexOfListener]. *)
Definition indexOfListener (listeners : list entry) (l : handler) : option nat :=
  indexOfListener_loop (length listeners) listeners l.

(** [getListeners], for a name: [events[evt] || (events[evt] = [])]
    defines the event when it is not; the array returned is the one
    stored. *)
Definition getListeners (em : EventEmitter) (evt : string)
  : EventEmitter * list entry :=
  match _events em !! evt with
  | Some listeners => (em, listeners)
  | None => (Emitter (<[evt := []]> (_events em)) (_onceReturnValue em), [])
  end.

(** [addListener], for a name. *)
Definition addListener (em : EventEmitter) (evt : string) (l : handler) : EventEmitter :=
  let '(em, listeners) := getListeners em evt in
  match indexOfListener listeners l with
  | None =>
      Emitter (<[evt := listeners ++ [match l with
                                      | function f => Entry f false
                                      | wrapped e => e
                                      end]]> (_events em))
              (_onceReturnValue em)
  | Some _ => em
  end.

(** [addOnceListener]. *)
Definition addOnceListener (em : EventEmitter) (evt : string) (f : fn) : EventEmitter :=
  addListener em evt (wrapped (Entry f true)).

(** [removeListener], for a name. *)
Definition removeListener (em : EventEmitter) (evt : string) (l : handler)
  : EventEmitter :=
  let '(em, listeners) := getListeners em evt in
  match indexOfListener listeners l with
  | Some index => Emitter (<[evt := delete index listeners]> (_events em))
                          (_onceReturnValue em)
  | None => em
  end.

(** [removeEvent]: with a name, or with no argument at all. *)
Definition removeEvent (em : EventEmitter) (evt : option string) : EventEmitter :=
  match evt with
  | Some evt => Emitter (delete evt (_events em)) (_onceReturnValue em)
  | None => Emitter ∅ (_onceReturnValue em)
  end.

(** [setOnceReturnValue]. *)
Definition setOnceReturnValue (em : EventEmitter) (value : JS.value) : EventEmitter :=
  Emitter (_events em) (Some value).

(** [_getOnceReturnValue]. *)
Definition _getOnceReturnValue (em : EventEmitter) : JS.value :=
  default (JS.boolean true) (_onceReturnValue em).

(** [emitEvent] either runs to its end or stops on reading [once] of
    [undefined]; both with the calls made so far, in order. *)
Inductive emitted :=
| finished (em : EventEmitter) (calls : list (fn * list JS.value))
| type_error (em : EventEmitter) (calls : list (fn * list JS.value)).

Section Emit.
(** What each listener returns when applied to the arguments. *)
Variable respond : fn → list JS.value → JS.value.

(** The [while (i--)] loop of [emitEvent] over [listeners[key]], which
    is the array stored under the name and is spliced by the
    [removeListener] calls of the loop itself. *)
Fixpoint emit_loop (i : nat) (evt : string) (args : list JS.value)
    (em : EventEmitter) : emitted :=
  match i with
  | 0 => finished em []
  | S i =>
      match default [] (_events em !! evt) !! i with
      | None => type_error em []
      | Some e =>
          let em1 :=
            if once e then removeListener em evt (function (listener e)) else em in
          let response := respond (listener e) args in
          let em2 :=
            if bool_decide (response = _getOnceReturnValue em1)
            then removeListener em1 evt (function (listener e)) else em1 in
          match emit_loop i evt args em2 with
          | finished em' calls => finished em' ((listener e, args) :: calls)
          | type_error em' calls => type_error em' ((listener e, args) :: calls)
          end
      end
  end.

(** [emitEvent], for a name; [emit] passes its own arguments as
    [args]. *)
Definition emitEvent (em : EventEmitter) (evt : string) (args : list JS.value)
  : emitted :=
  let '(em, listeners) := getListeners em evt in
  emit_loop (length listeners) evt args em.

(** The listeners an emit leaves in place: not [once], and not
    answering with the once-return value. *)
Definition stays (em : EventEmitter) (args : list JS.value) (e : entry) : bool :=
  negb (once e) && negb (bool_decide (respond (listener e) args = _getOnceReturnValue em)).

End Emit.

(** The listener objects under a name, none when it is not defined. *)
Definition listeners_of (em : EventEmitter) (evt : string) : list entry :=
  default [] (_events em !! evt).

End Emitter.

(** ** Readings used by the properties of the two programs together *)

Module Protocol.

(** What a targeted handler of the relay emits to the recipient for a
    message of [sender]: the payload as it came, the target replaced by
    the sender's id. *)
Definition relayed (sender : string) (m : Wire.to_relay) : option Wire.to_client :=
  match m with
  | Wire.list_request => None
  | Wire.offer _ o => Some (Wire.offer_from sender o)
  | Wire.answer _ a => Some (Wire.answer_from sender a)
  | Wire.peerconnected _ => Some (Wire.peerconnected_from sender)
  | Wire.icecandidate _ c => Some (Wire.icecandidate_from sender c)
  | Wire.streamremoved _ => Some (Wire.streamremoved_from sender)
  end.

(** What the relay's effects deliver to clients, in order. *)
Definition deliveries (out : list Relay.effect) : list Relay.effect :=
  List.filter Relay.is_delivery out.

(** The ids of a registry, in order. *)
Definition registered (sg : Relay.signaller) : list string :=
  Relay.id <$> Relay.clients sg.

(** The calls made on connections among the client's effects, each
    with the serial of its connection, in order. *)
Definition rtc_calls (out : list Client.effect) : list (nat * Client.rtc_call) :=
  flat_map (λ e, match e with Client.rtc n c => [(n, c)] | _ => [] end) out.

(** The serials of the connections in the table, in order. *)
Definition serials (s : Client.SignallerPeerConnection) : list nat :=
  (λ p, Client.serial (Client.connection p)) <$> Client.peerConnections s.

(** Every entry owns a connection of its own, constructed by this
    orchestrator. *)
Definition exclusive (s : Client.SignallerPeerConnection) : Prop :=
  Client.well_allocated s ∧ NoDup (serials s).

(** Exclusive ownership is kept. *)
Definition keeps_exclusive : relation Client.SignallerPeerConnection :=
  λ s s', exclusive s → exclusive s'.

(** What [addStreamToPeer] asks of the connection with serial [n]. *)
Definition offering (n : nat) (stream : Client.MediaStream)
  : list (nat * Client.rtc_call) :=
  [(n, Client.addStream_call stream);
   (n, Client.createOffer_call Client.offer_created Client.logError_callback)].

(** What constructing connection [n] asks of it while [localStream] is
    what it is. *)
Definition constructing (n : nat) (localStream : option Client.MediaStream)
  : list (nat * Client.rtc_call) :=
  (n, Client.construct)
  :: match localStream with
     | Some stream => offering n stream
     | None => []
     end.

End Protocol.

(** * Properties *)

(** ** The splice-while-visiting loop *)

Section forEach_splice_facts.
Context {A : Type} (matches : A → bool).

Lemma forEach_splice_sublist len k (arr : list A) :
  (JS.forEach_splice matches len k arr).1 `sublist_of` arr.
Proof.
  revert k arr. induction len as [|len IH]; intros k arr; simpl; [done|].
  destruct (arr !! k) as [x|]; [|apply IH].
  destruct (matches x); [|apply IH].
  specialize (IH (S k) (delete k arr)).
  destruct (JS.forEach_splice matches len (S k) (delete k arr)) as [arr' out].
  simpl in *. etrans; [exact IH|apply sublist_delete].
Qed.

(** Nothing matches: the array is left as it is. *)
Lemma forEach_splice_none len k (arr : list A) :
  (∀ x, x ∈ arr → matches x = false) →
  JS.forEach_splice matches len k arr = (arr, []).
Proof.
  revert k. induction len as [|len IH]; intros k Hno; simpl; [done|].
  destruct (arr !! k) as [x|] eqn:Hk; [|by apply IH].
  rewrite (Hno x) by (by eapply list_elem_of_lookup_2). by apply IH.
Qed.

(** At most one element matches: the loop removes it, wherever it is at
    or after the index the visit has reached. *)
Lemma forEach_splice_unique len k (arr : list A) :
  length arr ≤ k + len →
  (∀ i j x y, arr !! i = Some x → arr !! j = Some y →
              matches x = true → matches y = true → i = j) →
  (∀ i x, arr !! i = Some x → matches x = true → k ≤ i) →
  ∀ x, x ∈ (JS.forEach_splice matches len k arr).1 → matches x = false.
Proof.
  revert k arr. induction len as [|len IH]; intros k arr Hlen Huniq Hge x; simpl.
  - intros [i Hi]%list_elem_of_lookup. destruct (matches x) eqn:Hx; [|done].
    apply Hge in Hi as Hki; [|done]. apply lookup_lt_Some in Hi. lia.
  - destruct (arr !! k) as [y|] eqn:Hk.
    + destruct (matches y) eqn:Hy.
      * rewrite forEach_splice_none; simpl.
        { intros [i Hi]%list_elem_of_lookup. destruct (matches x) eqn:Hx; [|done].
          destruct (decide (i < k)) as [Hlt|Hnlt].
          - rewrite list_lookup_delete_lt in Hi by done.
            pose proof (Huniq _ _ _ _ Hi Hk Hx Hy). lia.
          - rewrite list_lookup_delete_ge in Hi by lia.
            pose proof (Huniq _ _ _ _ Hi Hk Hx Hy). lia. }
        intros z [i Hi]%list_elem_of_lookup. destruct (matches z) eqn:Hz; [|done].
        destruct (decide (i < k)) as [Hlt|Hnlt].
        -- rewrite list_lookup_delete_lt in Hi by done.
           pose proof (Huniq _ _ _ _ Hi Hk Hz Hy). lia.
        -- rewrite list_lookup_delete_ge in Hi by lia.
           pose proof (Huniq _ _ _ _ Hi Hk Hz Hy). lia.
      * apply IH; [lia|done|].
        intros i z Hi Hz. pose proof (Hge _ _ Hi Hz).
        destruct (decide (i = k)) as [->|]; [congruence|lia].
    + apply IH; [lia|done|].
      intros i z Hi Hz. pose proof (Hge _ _ Hi Hz).
      destruct (decide (i = k)) as [->|]; [congruence|lia].
Qed.

(** What the loop leaves when nothing matched before it started. *)
Lemma forEach_splice_keeps len k (arr : list A) x :
  x ∈ arr → matches x = false → x ∈ (JS.forEach_splice matches len k arr).1.
Proof.
  revert k arr. induction len as [|len IH]; intros k arr Hin Hx; simpl; [done|].
  destruct (arr !! k) as [y|] eqn:Hk; [|by apply IH].
  destruct (matches y) eqn:Hy; [|by apply IH].
  specialize (IH (S k) (delete k arr)).
  destruct (JS.forEach_splice matches len (S k) (delete k arr)) as [arr' out].
  simpl in *. apply IH; [|done].
  apply list_elem_of_lookup in Hin as [i Hi].
  destruct (decide (i < k)).
  - apply (list_elem_of_lookup_2 _ i). by rewrite list_lookup_delete_lt.
  - assert (i ≠ k) by congruence.
    apply (list_elem_of_lookup_2 _ (pred i)).
    rewrite list_lookup_delete_ge by lia. by replace (S (pred i)) with i by lia.
Qed.

(** The visit passes over a stretch without a match. *)
Lemma forEach_splice_skip n : ∀ len k (arr : list A),
  (∀ j x, k ≤ j < k + n → arr !! j = Some x → matches x = false) →
  JS.forEach_splice matches (n + len) k arr
  = JS.forEach_splice matches len (k + n) arr.
Proof.
  induction n as [|n IH]; intros len k arr Hno; simpl.
  - by rewrite Nat.add_0_r.
  - replace (k + S n) with (S k + n) by lia.
    destruct (arr !! k) as [x|] eqn:Hk.
    + rewrite (Hno k x) by (done || lia). apply IH.
      intros j y Hj. apply Hno. lia.
    + apply IH. intros j y Hj. apply Hno. lia.
Qed.

(** The only match is the last element: it is spliced out. *)
Lemma forEach_splice_last (l : list A) x :
  (∀ y, y ∈ l → matches y = false) → matches x = true →
  JS.forEach_splice matches (length (l ++ [x])) 0 (l ++ [x]) = (l, [x]).
Proof.
  intros Hno Hx. rewrite length_app. simpl length.
  rewrite forEach_splice_skip.
  - simpl. rewrite list_lookup_middle by done. rewrite Hx.
    by rewrite delete_middle, app_nil_r.
  - intros j y Hj Hy. apply Hno. apply (list_elem_of_lookup_2 _ j).
    by rewrite lookup_app_l in Hy by lia.
Qed.
(** Exactly one element matches: the loop splices it out and returns
    the rest in order. *)
Lemma forEach_splice_one (pre post : list A) x :
  (∀ y, y ∈ pre → matches y = false) → matches x = true →
  (∀ y, y ∈ post → matches y = false) →
  JS.forEach_splice matches (length (pre ++ x :: post)) 0 (pre ++ x :: post)
  = (pre ++ post, [x]).
Proof.
  intros Hpre Hx Hpost. rewrite length_app. simpl length.
  rewrite forEach_splice_skip.
  - simpl. rewrite list_lookup_middle by done. rewrite Hx, delete_middle.
    rewrite forEach_splice_none; [done|].
    intros y [?|?]%elem_of_app; auto.
  - intros j y Hj Hy. apply Hpre, (list_elem_of_lookup_2 _ j).
    by rewrite lookup_app_l in Hy by lia.
Qed.
End forEach_splice_facts.

(** ** The relay *)

Module RelayFacts.
Import Wire Relay.

Lemma getUserIds_fold (cs : list socket) (x : string) (acc : list string) :
  fold_left (λ ids client,
              if negb (String.eqb (id client) x) then ids ++ [id client] else ids)
            cs acc
  = acc ++ filter (λ i, i ≠ x) (id <$> cs).
Proof.
  revert acc. induction cs as [|c cs IH]; intros acc; simpl.
  - by rewrite app_nil_r.
  - rewrite IH. destruct (String.eqb_spec (id c) x) as [Heq|Hne]; simpl.
    + by rewrite filter_cons_False by (by intros ?).
    + by rewrite filter_cons_True, <-app_assoc by done.
Qed.

(** [getUserIds] keeps, in order, the ids that differ from the caller's. *)
Lemma getUserIds_filter (cs : list socket) (x : string) :
  getUserIds cs x = filter (λ i, i ≠ x) (id <$> cs).
Proof. unfold getUserIds. by rewrite getUserIds_fold. Qed.

Lemma findSocket_fold (cs : list socket) (i : string) (found : option socket) :
  fold_left (λ foundClient client,
              if String.eqb (id client) i then Some client else foundClient)
            cs found = None
  ↔ found = None ∧ i ∉ id <$> cs.
Proof.
  revert found. induction cs as [|c cs IH]; intros found; simpl.
  - split; [intros ->; split; [done|apply not_elem_of_nil]|by intros [-> _]].
  - rewrite IH, not_elem_of_cons.
    destruct (String.eqb_spec (id c) i) as [Heq|Hne]; split.
    + by intros [[=] _].
    + intros [_ [Hn _]]. by destruct Hn.
    + intros [-> Hn]. split; [done|]. split; [congruence|done].
    + by intros [-> [_ Hn]].
Qed.

Lemma filter_keeps_all (i : string) (cs : list socket) :
  (∀ c, c ∈ cs → id c ≠ i) → filter (λ c, id c ≠ i) cs = cs.
Proof.
  induction cs as [|c cs IH]; intros Hall; [done|].
  rewrite filter_cons_True by (apply Hall; left).
  f_equal. apply IH. intros y Hy. apply Hall. by right.
Qed.

(** A target does not resolve exactly when no registered socket has it. *)
Lemma findSocket_None (cs : list socket) (i : string) :
  findSocket cs i = None ↔ i ∉ id <$> cs.
Proof.
  unfold findSocket. rewrite findSocket_fold.
  split; [by intros [_ ?]|by intros ?].
Qed.

Lemma snoc_split {A} (l l1 l2 : list A) (a x : A) :
  l ++ [a] = l1 ++ x :: l2 →
  (l2 = [] ∧ l = l1 ∧ a = x) ∨ (∃ l2', l2 = l2' ++ [a] ∧ l = l1 ++ x :: l2').
Proof.
  destruct l2 as [|y l2 _] using rev_ind; intros Heq.
  - left. by apply app_inj_tail in Heq as [-> ->].
  - right. exists l2. change (x :: l2 ++ [y]) with ((x :: l2) ++ [y]) in Heq.
    rewrite app_assoc in Heq. by apply app_inj_tail in Heq as [-> ->].
Qed.

Lemma members_snoc es e :
  members (es ++ [e])
  = match e with
    | connection s => members es ++ [s]
    | close this => filter (λ c, id c ≠ id this) (members es)
    | message _ _ => members es
    end.
Proof. unfold members. by rewrite fold_left_app. Qed.

(** The membership after a run: the sockets that connected and have not
    disconnected since. *)
Lemma members_present es s : s ∈ members es ↔ present s es.
Proof.
  induction es as [|e es IH] using rev_ind.
  - split; [by intros ?%elem_of_nil|]. intros (es1 & es2 & Heq & _).
    by destruct es1.
  - rewrite members_snoc. unfold present in *. destruct e as [c|this m|this].
    + rewrite elem_of_app, list_elem_of_singleton, IH. split.
      * intros [(es1 & es2 & -> & Hno)| ->].
        -- exists es1, (es2 ++ [connection c]). split; [by rewrite <-app_assoc|].
           intros this [?|[=]%list_elem_of_singleton]%elem_of_app. auto.
        -- exists es, []. split; [done|]. by intros this ?%elem_of_nil.
      * intros (es1 & es2 & Heq & Hno).
        apply snoc_split in Heq as [(-> & -> & [= ->])|(es2' & -> & ->)]; [by right|].
        left. exists es1, es2'. split; [done|].
        intros this Hin. apply Hno, elem_of_app. by left.
    + rewrite IH. split.
      * intros (es1 & es2 & -> & Hno).
        exists es1, (es2 ++ [message this m]). split; [by rewrite <-app_assoc|].
        intros t [?|[=]%list_elem_of_singleton]%elem_of_app. auto.
      * intros (es1 & es2 & Heq & Hno).
        apply snoc_split in Heq as [(-> & -> & [=])|(es2' & -> & ->)].
        exists es1, es2'. split; [done|].
        intros t Hin. apply Hno, elem_of_app. by left.
    + rewrite list_elem_of_filter, IH. split.
      * intros (Hne & es1 & es2 & -> & Hno).
        exists es1, (es2 ++ [close this]). split; [by rewrite <-app_assoc|].
        intros t [?|[= ->]%list_elem_of_singleton]%elem_of_app; [auto|done].
      * intros (es1 & es2 & Heq & Hno).
        apply snoc_split in Heq as [(-> & -> & [=])|(es2' & -> & ->)].
        split.
        -- intros Heq. apply (Hno this); [|done].
           apply elem_of_app. right. left.
        -- exists es1, es2'. split; [done|].
           intros t Hin. apply Hno, elem_of_app. by left.
Qed.

Section Signaller.
Variable debug : JS.value.

Lemma removeUser_sublist sg i :
  clients (removeUser debug sg i).1 `sublist_of` clients sg.
Proof.
  unfold removeUser.
  pose proof (forEach_splice_sublist (λ client, String.eqb (id client) i)
                (length (clients sg)) 0 (clients sg)) as H.
  by destruct (JS.forEach_splice _ _ _ _).
Qed.

Lemma on_message_state sg this m : (on_message debug sg this m).1 = sg.
Proof.
  destruct m; simpl; try done; by destruct (findSocket _ _).
Qed.

Lemma step_sublist sg e :
  clients (step debug sg e).1 `sublist_of`
    clients sg ++ match e with connection s => [s] | _ => [] end.
Proof.
  destruct e as [c|this m|this]; simpl.
  - done.
  - rewrite on_message_state. by rewrite app_nil_r.
  - unfold on_close. pose proof (removeUser_sublist sg (id this)) as H.
    destruct (removeUser debug sg (id this)) as [sg' out]. simpl in *.
    by rewrite app_nil_r.
Qed.

Lemma run_sublist es sg :
  clients (fold_left (λ sg e, (step debug sg e).1) es sg)
    `sublist_of` clients sg ++ joined es.
Proof.
  revert sg. induction es as [|e es IH]; intros sg; simpl.
  - by rewrite app_nil_r.
  - etrans; [apply IH|]. rewrite app_assoc.
    apply sublist_app; [|done]. by apply step_sublist.
Qed.

Lemma removeUser_clients sg i :
  clients (removeUser debug sg i).1
  = (JS.forEach_splice (λ client, String.eqb (id client) i)
                       (length (clients sg)) 0 (clients sg)).1.
Proof. unfold removeUser. by destruct (JS.forEach_splice _ _ _ _). Qed.

Lemma on_close_clients sg this :
  clients (on_close debug sg this).1 = clients (removeUser debug sg (id this)).1.
Proof. unfold on_close. by destruct (removeUser debug sg (id this)). Qed.

(** With no id twice in the registry, the loop of [removeUser] leaves
    the sockets with another id, in order. *)
Lemma on_close_filter sg this :
  NoDup (id <$> clients sg) →
  clients (on_close debug sg this).1 = filter (λ c, id c ≠ id this) (clients sg).
Proof.
  intros Hnodup. rewrite on_close_clients, removeUser_clients.
  destruct (decide (id this ∈ id <$> clients sg)) as [Hin|Hout].
  - apply list_elem_of_fmap in Hin as (c & Hc & Hin).
    apply list_elem_of_split in Hin as (pre & post & Hsplit).
    rewrite Hsplit in *. rewrite fmap_app in Hnodup. simpl in Hnodup.
    apply NoDup_app in Hnodup as (_ & Hpre & Hpost).
    apply NoDup_cons in Hpost as [Hpost _].
    assert (∀ y, y ∈ pre → id y ≠ id this) as Hpre'.
    { intros y Hy Heq. apply (Hpre (id y)); [by apply list_elem_of_fmap_2|].
      rewrite Heq, Hc. left. }
    assert (∀ y, y ∈ post → id y ≠ id this) as Hpost'.
    { intros y Hy Heq. apply Hpost. rewrite <-Hc, <-Heq.
      by apply list_elem_of_fmap_2. }
    rewrite forEach_splice_one; simpl.
    + rewrite filter_app, filter_cons_False by (by intros []).
      by rewrite !filter_keeps_all.
    + intros y Hy. apply String.eqb_neq. auto.
    + apply String.eqb_eq. done.
    + intros y Hy. apply String.eqb_neq. auto.
  - rewrite forEach_splice_none; simpl.
    + symmetry. apply filter_keeps_all.
      intros y Hy Heq. apply Hout. rewrite <-Heq. by apply list_elem_of_fmap_2.
    + intros y Hy. apply String.eqb_neq. intros Heq. apply Hout.
      rewrite <-Heq. by apply list_elem_of_fmap_2.
Qed.

Lemma run_snoc room es e :
  run debug room (es ++ [e]) = (step debug (run debug room es) e).1.
Proof. unfold run. by rewrite fold_left_app. Qed.

Lemma run_members room es :
  NoDup (id <$> joined es) → clients (run debug room es) = members es.
Proof.
  induction es as [|e es IH] using rev_ind; intros Hnodup; [done|].
  unfold joined in Hnodup. rewrite flat_map_app, fmap_app in Hnodup.
  apply NoDup_app in Hnodup as (Hes & _ & _). specialize (IH Hes).
  rewrite run_snoc. unfold members. rewrite fold_left_app. simpl.
  fold (members es). rewrite <-IH.
  destruct e as [s|this m|this]; simpl.
  - done.
  - by rewrite on_message_state.
  - apply on_close_filter.
    refine (sublist_NoDup _ _ Hes _). apply fmap_sublist.
    apply (run_sublist es (Signaller room [])).
Qed.

(** C5. In every state a run of the relay reaches, the transport
    handing out each id once, [getUserIds x] is the ids of the room's
    members minus [x], in join order: the registry is the membership
    of the specification (a connection joins, a disconnect leaves),
    that is, it lists a socket exactly when the socket has connected
    and has not disconnected since, in the order of the connections;
    and [getUserIds x] is the registry's ids that differ from [x], in
    registry order. *)
Theorem getUserIds_others_in_join_order (room : string) (es : list event) (x : string) :
  NoDup (id <$> joined es) →
  let cs := clients (run debug room es) in
  cs = members es
  ∧ (∀ s, s ∈ cs ↔ present s es)
  ∧ cs `sublist_of` joined es
  ∧ getUserIds cs x = filter (λ i, i ≠ x) (id <$> cs)
  ∧ (∀ y, y ∈ getUserIds cs x ↔ ∃ s, present s es ∧ id s = y ∧ y ≠ x).
Proof.
  intros Hnodup cs.
  assert (cs = members es) as Hcs by (by apply run_members).
  assert (∀ s, s ∈ cs ↔ present s es) as Hpresent
    by (intros s; rewrite Hcs; apply members_present).
  split; [done|]. split; [done|].
  split; [apply (run_sublist es (Signaller room []))|].
  split; [apply getUserIds_filter|].
  intros y. rewrite getUserIds_filter, list_elem_of_filter, list_elem_of_fmap.
  split.
  - intros (Hne & s & -> & Hs). exists s. by rewrite <-Hpresent.
  - intros (s & Hs & <- & Hne). split; [done|]. exists s. by rewrite Hpresent.
Qed.

(** C6. A routed message whose target is not in the registry leaves
    the relay as it was and reaches nobody: whatever the handler does
    is console output. *)
Theorem routing_miss_drops (sg : signaller) (this : socket) (m : to_relay)
    (target : string) :
  target_of m = Some target →
  target ∉ id <$> clients sg →
  (step debug sg (message this m)).1 = sg
  ∧ List.filter is_delivery (step debug sg (message this m)).2 = [].
Proof.
  intros Hm Hmiss%findSocket_None. simpl.
  destruct m; simplify_eq/=; rewrite Hmiss; simpl; try done.
  unfold log. by destruct (JS.truthy debug).
Qed.

(** C9. No message handler writes the registry; a connection and a
    close are the only events that can. *)
Theorem messages_leave_registry (sg : signaller) :
  (∀ this m, (step debug sg (message this m)).1 = sg)
  ∧ (∀ e, (step debug sg e).1 ≠ sg →
          (∃ s, e = connection s) ∨ (∃ this, e = close this))
  ∧ (∀ s, clients (step debug sg (connection s)).1 = clients sg ++ [s]).
Proof.
  split; [intros; apply on_message_state|]. split; [|done].
  intros [s|this m|this] Hne; [eauto| |eauto].
  destruct Hne. apply on_message_state.
Qed.

(** C2, amended. Every join adds one entry for the identifier. *)
Theorem join_adds_an_entry (sg : signaller) (s : socket) :
  entries (id s) (clients (step debug sg (connection s)).1)
  = S (entries (id s) (clients sg))
  ∧ roomName (step debug sg (connection s)).1 = roomName sg.
Proof.
  split; [|done]. unfold entries. simpl.
  rewrite List.filter_app, length_app. simpl.
  rewrite String.eqb_refl. simpl. lia.
Qed.

End Signaller.

(** C5, at a run where "a" and "b" join and "a" leaves. *)
Lemma getUserIds_others_in_join_order_witness :
  let es := [connection (Socket "a"); connection (Socket "b");
             message (Socket "b") list_request; close (Socket "a");
             connection (Socket "c")] in
  NoDup (id <$> joined es)
  ∧ getUserIds (clients (run (JS.boolean true) "default" es)) "c" = ["b"].
Proof.
  cbv zeta.
  assert (NoDup (id <$> joined [connection (Socket "a"); connection (Socket "b");
                                message (Socket "b") list_request; close (Socket "a");
                                connection (Socket "c")])) as Hnodup.
  { apply (bool_decide_unpack _). by vm_compute. }
  split; [exact Hnodup|].
  destruct (getUserIds_others_in_join_order (JS.boolean true) "default" _ "c" Hnodup)
    as (_ & _ & _ & -> & _).
  reflexivity.
Defined.

(** C6, at a concrete miss. *)
Lemma routing_miss_drops_witness :
  (step (JS.boolean true) (Signaller "default" [Socket "a"])
        (message (Socket "a") (offer "nonexistent-id" "v=0"))).1
  = Signaller "default" [Socket "a"]
  ∧ List.filter is_delivery
      (step (JS.boolean true) (Signaller "default" [Socket "a"])
            (message (Socket "a") (offer "nonexistent-id" "v=0"))).2 = [].
Proof.
  apply (routing_miss_drops (JS.boolean true) (Signaller "default" [Socket "a"])
           (Socket "a") (offer "nonexistent-id" "v=0") "nonexistent-id").
  - reflexivity.
  - apply findSocket_None. reflexivity.
Defined.

(** C2, as stated, fails: joining the same identifier again leaves two
    entries, and the registry differs from the one after a single
    join. *)
Lemma join_twice_two_entries :
  let once := (step JS.undefined (Signaller "default" []) (connection (Socket "a"))).1 in
  let twice := (step JS.undefined once (connection (Socket "a"))).1 in
  entries "a" (clients twice) = 2 ∧ entries "a" (clients twice) ≠ 1 ∧ twice ≠ once.
Proof.
  cbv zeta. split; [reflexivity|]. split; [|]; intros [=].
Qed.

End RelayFacts.

(** ** The orchestrator *)

Module ClientFacts.
Import Client.

(** *** Scanning the table *)

Lemma hasPeer_fold (peers : list peer) (i : string) (found : bool) :
  fold_left (λ foundPeer peer, if String.eqb (id peer) i then true else foundPeer)
            peers found
  = found || bool_decide (i ∈ id <$> peers).
Proof.
  revert found. induction peers as [|p peers IH]; intros found; simpl.
  - by rewrite orb_false_r.
  - rewrite IH. destruct (String.eqb_spec (id p) i) as [Heq|Hne].
    + rewrite (bool_decide_eq_true_2 (i ∈ id p :: _)) by (rewrite Heq; left).
      by rewrite orb_true_r.
    + f_equal. apply bool_decide_ext. rewrite elem_of_cons.
      split; [by right|]. by intros [?|?].
Qed.

Lemma hasPeer_elem_of (peers : list peer) (i : string) :
  hasPeer peers i = bool_decide (i ∈ id <$> peers).
Proof. unfold hasPeer. by rewrite hasPeer_fold. Qed.

Lemma find_peer_None (peers : list peer) (i : string) k found :
  find_peer peers i k found = None ↔ found = None ∧ i ∉ id <$> peers.
Proof.
  revert k found. induction peers as [|p peers IH]; intros k found; simpl.
  - split; [intros ->; split; [done|apply not_elem_of_nil]|by intros [-> _]].
  - rewrite IH, not_elem_of_cons.
    destruct (String.eqb_spec (id p) i) as [Heq|Hne]; split.
    + by intros [[=] _].
    + intros [_ [Hn _]]. by destruct Hn.
    + intros [-> Hn]. split; [done|]. split; [congruence|done].
    + by intros [-> [_ Hn]].
Qed.

(** A match found by the scan is an element of the table with that id. *)
Lemma find_peer_Some (peers : list peer) (i : string) k found j :
  find_peer peers i k found = Some j →
  found = Some j ∨ (k ≤ j ∧ ∃ p, peers !! (j - k) = Some p ∧ id p = i).
Proof.
  revert k found. induction peers as [|p peers IH]; intros k found; simpl.
  - by left.
  - intros [Hf|(Hle & q & Hq & Hid)]%IH.
    + destruct (String.eqb_spec (id p) i) as [Heq|Hne]; [|by left].
      simplify_eq. right. split; [done|]. exists p. by rewrite Nat.sub_diag.
    + right. split; [lia|]. exists q. split; [|done].
      by replace (j - k) with (S (j - S k)) by lia.
Qed.

(** *** Sequencing *)

(** Running [m ≫= f] from the results of its two halves. *)
Lemma bind_returned {A B} (m : M A) (f : A → M B) s a s1 out1 b s2 out2 :
  m s = returned a s1 out1 → f a s1 = returned b s2 out2 →
  (m ≫= f) s = returned b s2 (out1 ++ out2).
Proof. intros Hm Hf. unfold mbind, M_bind. by rewrite Hm, Hf. Qed.

Lemma relates_bind {A B} (R : relation SignallerPeerConnection) `{!Transitive R}
    (m : M A) (f : A → M B) :
  relates R m → (∀ a, relates R (f a)) → relates R (m ≫= f).
Proof.
  intros Hm Hf s. specialize (Hm s). unfold mbind, M_bind.
  destruct (m s) as [a s1 out1|s1 out1]; simpl in *; [|done].
  specialize (Hf a s1). destruct (f a s1); simpl in *; by etrans.
Qed.

Lemma relates_ret {A} (R : relation SignallerPeerConnection) `{!Reflexive R} (a : A) :
  relates R (mret a).
Proof. by intros s. Qed.

Lemma relates_tell (R : relation SignallerPeerConnection) `{!Reflexive R} out :
  relates R (tell out).
Proof. by intros s. Qed.

Lemma relates_get (R : relation SignallerPeerConnection) `{!Reflexive R} :
  relates R get.
Proof. by intros s. Qed.

Lemma relates_deref (R : relation SignallerPeerConnection) `{!Reflexive R} r :
  relates R (deref r).
Proof. intros s. unfold deref. by destruct (r ≫= _). Qed.

Lemma relates_throw {A} (R : relation SignallerPeerConnection) `{!Reflexive R} :
  relates R (@throw A).
Proof. by intros s. Qed.

Lemma relates_forEach {A} (R : relation SignallerPeerConnection)
    `{!Reflexive R, !Transitive R} (f : A → M unit) (arr : list A) :
  (∀ x, relates R (f x)) → relates R (forEach f arr).
Proof.
  intros Hf. induction arr as [|x arr IH]; simpl; [by apply relates_ret|].
  apply relates_bind; [done|apply Hf|by intros _].
Qed.

Lemma relates_forEach_indexed {A} (R : relation SignallerPeerConnection)
    `{!Reflexive R, !Transitive R} (f : A → nat → M unit) (arr : list A) k :
  (∀ x k, relates R (f x k)) → relates R (forEach_indexed f arr k).
Proof.
  intros Hf. revert k. induction arr as [|x arr IH]; intros k; simpl;
    [by apply relates_ret|].
  apply relates_bind; [done|apply Hf|intros _; apply IH].
Qed.

#[local] Instance same_ids_refl : Reflexive same_ids.
Proof. by intros s. Qed.
#[local] Instance same_ids_trans : Transitive same_ids.
Proof. unfold same_ids. intros s1 s2 s3 H1 H2. by rewrite H2. Qed.
#[local] Instance keeps_NoDup_refl : Reflexive keeps_NoDup.
Proof. intros s H. exact H. Qed.
#[local] Instance keeps_NoDup_trans : Transitive keeps_NoDup.
Proof. unfold keeps_NoDup. intros s1 s2 s3 H1 H2 H. auto. Qed.

Lemma same_ids_NoDup {A} (m : M A) : relates same_ids m → relates keeps_NoDup m.
Proof. intros H s Hs. by rewrite (H s). Qed.


Lemma relates_modify (R : relation SignallerPeerConnection) f :
  (∀ s, R s (f s)) → relates R (modify f).
Proof. intros H s. apply H. Qed.

(** *** Reading the effects *)

Lemma notifications_app out1 out2 :
  notifications (out1 ++ out2) = notifications out1 ++ notifications out2.
Proof. apply flat_map_app. Qed.

Lemma sent_app out1 out2 : sent (out1 ++ out2) = sent out1 ++ sent out2.
Proof. apply flat_map_app. Qed.

Lemma calls_app n out1 out2 : calls n (out1 ++ out2) = calls n out1 ++ calls n out2.
Proof. apply flat_map_app. Qed.

Lemma notifications_cons e out :
  notifications (e :: out)
  = match e with emit n => [n] | _ => [] end ++ notifications out.
Proof. done. Qed.

Lemma sent_cons e out :
  sent (e :: out) = match e with socket_emit m => [m] | _ => [] end ++ sent out.
Proof. done. Qed.

Lemma calls_cons n e out :
  calls n (e :: out)
  = match e with rtc n' c => if Nat.eqb n' n then [c] else [] | _ => [] end
    ++ calls n out.
Proof. done. Qed.

(** Pushes the three readings through an effect list. *)
Ltac read_effects :=
  repeat progress
    rewrite ?notifications_app, ?sent_app, ?calls_app,
      ?notifications_cons, ?sent_cons, ?calls_cons;
  simpl.

(** Unfolds the monad and the effect-only methods down to the lists they
    produce. *)
Ltac run :=
  unfold addStreamToPeer, createOffer, sendOffer, sendAnswer, peerConnected,
    bindConnectionEvents, logError, log, log_verbose, getPeerList,
    mbind, M_bind, mret, M_ret, get, tell, modify, push, assign, throw,
    new_PeerConnection;
  simpl.

(** Decides the console switches so that effect lists become explicit. *)
Ltac console_cases debug :=
  unfold console; destruct (JS.truthy debug), (JS.is_verbose debug); simpl.

Section Orchestrator.
Variable debug : JS.value.

(** *** [addPeer] and [getPeer] *)

Lemma addPeer_present s i suppress :
  i ∈ ids s → addPeer debug i suppress s = returned None s [].
Proof.
  intros Hi. unfold addPeer. run.
  by rewrite hasPeer_elem_of, bool_decide_eq_true_2.
Qed.

Lemma addPeer_absent s i suppress :
  i ∉ ids s →
  ∃ out,
    addPeer debug i suppress s
    = returned (Some (length (peerConnections s)))
        (State (peerConnections s ++ [fresh_peer (allocated s) suppress i])
               (localStream s) (S (allocated s)))
        out
    ∧ notifications out = []
    ∧ sent out = []
    ∧ calls (allocated s) out
      = construct :: match localStream s with
                     | Some stream =>
                         [addStream_call stream;
                          createOffer_call offer_created logError_callback]
                     | None => []
                     end
    ∧ (∀ n, n ≠ allocated s → calls n out = []).
Proof.
  intros Hi. unfold addPeer. run.
  rewrite hasPeer_elem_of, bool_decide_eq_false_2 by done. simpl.
  destruct s as [peers [stream|] a]; simpl; eexists; (split; [reflexivity|]);
    console_cases debug; rewrite ?Nat.eqb_refl; repeat split; try done;
    intros n Hn; by rewrite (proj2 (Nat.eqb_neq a n)) by done.
Qed.

Lemma addPeer_keeps_NoDup i suppress : relates keeps_NoDup (addPeer debug i suppress).
Proof.
  intros s Hs. destruct (decide (i ∈ ids s)) as [Hi|Hi].
  - by rewrite addPeer_present.
  - destruct (addPeer_absent s i suppress Hi) as (out & -> & _). simpl.
    unfold ids in *. simpl. rewrite fmap_app. apply NoDup_app.
    split; [done|]. split; [|apply NoDup_singleton].
    intros x Hx ->%list_elem_of_singleton. done.
Qed.

(** [getPeer] always returns a reference to an entry with the id asked
    for: the one found, or the one [addPeer] has just pushed. *)
Lemma getPeer_spec s i :
  ∃ k p s' out,
    getPeer debug i s = returned (Some k) s' out
    ∧ peerConnections s' !! k = Some p
    ∧ id p = i
    ∧ (i ∈ ids s → s' = s ∧ out = [])
    ∧ (i ∉ ids s →
       k = length (peerConnections s)
       ∧ p = fresh_peer (allocated s) JS.undefined i
       ∧ s' = State (peerConnections s ++ [p]) (localStream s) (S (allocated s))
       ∧ notifications out = []
       ∧ sent out = []
       ∧ calls (allocated s) out
         = construct :: match localStream s with
                        | Some stream =>
                            [addStream_call stream;
                             createOffer_call offer_created logError_callback]
                        | None => []
                        end
       ∧ (∀ n, n ≠ allocated s → calls n out = [])).
Proof.
  unfold getPeer. run.
  destruct (find_peer (peerConnections s) i 0 None) as [k|] eqn:Hfind.
  - apply find_peer_Some in Hfind as [?|(_ & p & Hp & Hid)]; [done|].
    rewrite Nat.sub_0_r in Hp.
    exists k, p, s, []. do 4 (split; [done|]).
    intros []. unfold ids. rewrite <-Hid. by eapply list_elem_of_fmap_2, list_elem_of_lookup_2.
  - apply find_peer_None in Hfind as [_ Hi].
    destruct (addPeer_absent s i JS.undefined Hi) as (out & -> & Hn & Hs & Hc & Hc').
    eexists _, _, _, _. split; [reflexivity|]. simpl.
    split; [by rewrite list_lookup_middle|]. split; [done|]. split; [done|].
    intros _. by repeat split.
Qed.

Lemma getPeer_keeps_NoDup i : relates keeps_NoDup (getPeer debug i).
Proof.
  intros s Hs. destruct (getPeer_spec s i) as (k & p & s' & out & -> & _ & Hid & Hin & Hout).
  simpl. destruct (decide (i ∈ ids s)) as [Hi|Hi].
  - by destruct (Hin Hi) as [-> _].
  - destruct (Hout Hi) as (_ & _ & -> & _). unfold ids in *. simpl.
    rewrite fmap_app. apply NoDup_app.
    split; [done|]. split; [|apply NoDup_singleton].
    intros x Hx ->%list_elem_of_singleton. simpl in *. by subst.
Qed.

End Orchestrator.

Section Regeneration.
Variable debug : JS.value.

(** *** [regenStream] *)

Lemma regenStream_spec s k p suppress :
  peerConnections s !! k = Some p →
  ∃ out,
    regenStream debug (Some k) suppress s
    = returned tt
        (State (<[k := regenerated suppress (allocated s) p]> (peerConnections s))
               (localStream s) (S (allocated s)))
        out
    ∧ notifications out = []
    ∧ sent out = []
    ∧ calls (allocated s) out
      = construct :: match localStream s with
                     | Some stream =>
                         [addStream_call stream;
                          createOffer_call offer_created logError_callback]
                     | None => []
                     end
    ∧ (∀ n, n ≠ allocated s → calls n out = []).
Proof.
  intros Hp. unfold regenStream, deref. run. rewrite Hp. simpl.
  rewrite list_insert_insert_eq.
  destruct s as [peers [stream|] a]; simpl; eexists; (split; [reflexivity|]);
    console_cases debug; rewrite ?Nat.eqb_refl; repeat split; try done;
    intros n Hn; by rewrite (proj2 (Nat.eqb_neq a n)) by done.
Qed.

Lemma regenStream_undefined s suppress :
  regenStream debug None suppress s = thrown s [].
Proof. done. Qed.

Lemma regenStream_same_ids r suppress : relates same_ids (regenStream debug r suppress).
Proof.
  intros s. destruct r as [k|]; [|done].
  destruct (peerConnections s !! k) as [p|] eqn:Hp.
  - destruct (regenStream_spec s k p suppress Hp) as (out & -> & _).
    unfold same_ids, ids. simpl. rewrite list_fmap_insert. simpl.
    apply list_insert_id. by rewrite list_lookup_fmap, Hp.
  - unfold regenStream, deref. run. by rewrite Hp.
Qed.

(** *** The loop of [removeLocalStream] *)

Lemma removal_loop rest : ∀ done a,
  ∃ out,
    forEach_indexed (remove_from debug) rest (length done) (State (done ++ rest) None a)
    = returned tt
        (State (done ++ imap (λ j, regenerated (JS.boolean true) (a + j)) rest)
               None (a + length rest))
        out
    ∧ notifications out = []
    ∧ sent out = (λ p, Wire.streamremoved (id p)) <$> rest.
Proof.
  induction rest as [|p rest IH]; intros done a; simpl.
  - exists []. by rewrite Nat.add_0_r.
  - set (p' := regenerated (JS.boolean true) a p).
    assert ((done ++ p :: rest) !! length done = Some p) as Hp
      by apply list_lookup_middle, eq_refl.
    assert (∃ out1,
              remove_from debug p (length done) (State (done ++ p :: rest) None a)
              = returned tt (State ((done ++ [p']) ++ rest) None (S a)) out1
              ∧ notifications out1 = []
              ∧ sent out1 = [Wire.streamremoved (id p)])
      as (out1 & Hbody & Hn1 & Hs1).
    { destruct (regenStream_spec (State (done ++ p :: rest) None a) (length done) p
                  (JS.boolean true) Hp) as (out & Hregen & Hn & Hs & _).
      simpl in Hregen.
      replace (<[length done := p']> (done ++ p :: rest))
        with ((done ++ [p']) ++ rest) in Hregen
        by (rewrite <-app_assoc; simpl;
            by rewrite <-(Nat.add_0_r (length done)), insert_app_r).
      eexists. split; [|split].
      - unfold remove_from, deref. run. rewrite Hp. simpl.
        by rewrite Hregen.
      - read_effects. rewrite Hn. by console_cases debug.
      - read_effects. rewrite Hs. by console_cases debug. }
    destruct (IH (done ++ [p']) (S a)) as (out2 & Hloop & Hn2 & Hs2).
    rewrite length_app, Nat.add_1_r in Hloop.
    exists (out1 ++ out2). split; [|split].
    + rewrite (bind_returned _ _ _ _ _ _ _ _ _ Hbody Hloop).
      f_equal. f_equal; [|lia].
      rewrite <-app_assoc. simpl. f_equal. f_equal.
      * unfold p'. by rewrite Nat.add_0_r.
      * apply imap_ext. intros j q _. simpl. f_equal. lia.
    + by rewrite notifications_app, Hn1, Hn2.
    + by rewrite sent_app, Hs1, Hs2.
Qed.

Lemma removeLocalStream_spec s stream :
  localStream s = Some stream →
  ∃ out,
    removeLocalStream debug s
    = returned tt
        (State (imap (λ j, regenerated (JS.boolean true) (allocated s + j))
                     (peerConnections s))
               None (allocated s + length (peerConnections s)))
        out
    ∧ notifications out = [localStreamRemoved]
    ∧ sent out = (λ p, Wire.streamremoved (id p)) <$> peerConnections s.
Proof.
  intros Hls. destruct s as [peers ls a]. simpl in *. subst ls.
  destruct (removal_loop peers [] a) as (out & Hloop & Hn & Hs). simpl in Hloop.
  unfold removeLocalStream. run. rewrite Hloop.
  eexists. split; [reflexivity|]. read_effects. by rewrite Hn, Hs, !app_nil_r.
Qed.

Lemma removeLocalStream_undefined s :
  localStream s = None → removeLocalStream debug s = thrown s [].
Proof. intros Hls. unfold removeLocalStream. run. by rewrite Hls. Qed.

(** A handler bound with a truthy [suppress] publishes no stream,
    however often the connection raises the event. *)
Lemma fire_addstream p x s :
  fire debug p (addstream_event x) s
  = returned tt s
      match handlers (connection p) with
      | None => []
      | Some suppress =>
          console debug ("Remote stream added from " +:+ id p)
          ++ (if JS.truthy suppress
              then console debug "onaddstream event suppressed"
              else [emit (remoteStreamAdded x (id p))])
      end.
Proof.
  unfold fire. destruct (handlers (connection p)) as [suppress|]; [|done].
  run. by destruct (JS.truthy suppress).
Qed.

Lemma fire_addstream_notifications p x s :
  notifications (effects_of (fire debug p (addstream_event x) s))
  = match handlers (connection p) with
    | Some suppress => if JS.truthy suppress then [] else [remoteStreamAdded x (id p)]
    | None => []
    end.
Proof.
  rewrite fire_addstream. simpl.
  destruct (handlers (connection p)) as [suppress|]; [|done].
  read_effects. destruct (JS.truthy suppress); by console_cases debug.
Qed.

(** C3, amended. When [removeLocalStream] replaces the connection of an
    entry that still has a remote stream, the handlers of the new
    connection are bound with a truthy [suppress], read off the old
    connection before it is replaced, and from then on every
    remote-stream-added event of that connection is swallowed: none is
    published, the first no more than any later one. *)
Theorem local_removal_suppresses_every_addstream s stream k p :
  localStream s = Some stream →
  peerConnections s !! k = Some p →
  getRemoteStreams (connection p) ≠ [] →
  ∃ s' out p',
    removeLocalStream debug s = returned tt s' out
    ∧ peerConnections s' !! k = Some p'
    ∧ id p' = id p
    ∧ serial (connection p') = allocated s + k
    ∧ handlers (connection p')
      = Some (JS.number (length (getRemoteStreams (connection p))))
    ∧ JS.truthy (JS.number (length (getRemoteStreams (connection p)))) = true
    ∧ ∀ x s'', fire debug p' (addstream_event x) s''
               = returned tt s''
                   (console debug ("Remote stream added from " +:+ id p)
                    ++ console debug "onaddstream event suppressed")
               ∧ notifications (effects_of (fire debug p' (addstream_event x) s'')) = [].
Proof.
  intros Hls Hp Hremote.
  destruct (removeLocalStream_spec s stream Hls) as (out & Hrun & _).
  assert (JS.truthy (JS.number (length (getRemoteStreams (connection p)))) = true)
    as Htruthy by (by destruct (getRemoteStreams (connection p))).
  set (p' := regenerated (JS.boolean true) (allocated s + k) p).
  assert (handlers (connection p')
          = Some (JS.number (length (getRemoteStreams (connection p))))) as Hh by done.
  eexists _, out, p'. split; [exact Hrun|].
  split; [simpl; by rewrite list_lookup_imap, Hp|].
  do 3 (split; [done|]). split; [exact Htruthy|]. intros x s''. split.
  - by rewrite fire_addstream, Hh, Htruthy.
  - by rewrite fire_addstream_notifications, Hh, Htruthy.
Qed.

(** C8, amended. [regenStream] puts a connection constructed during
    the call in place of the entry's old one, with no remote stream
    yet; the entry keeps its id and its place in the table, no other
    entry and no other field of [this] but the allocation count
    changes; the handlers are bound on the new connection with
    [suppress && (number of remote streams of the old connection)],
    whatever they were bound with before. *)
Theorem regenStream_replaces_connection s k p suppress :
  peerConnections s !! k = Some p →
  ∃ s' out p',
    regenStream debug (Some k) suppress s = returned tt s' out
    ∧ peerConnections s' !! k = Some p'
    ∧ id p' = id p
    ∧ connection p'
      = PeerConnection (allocated s) []
          (Some (JS.and suppress
                        (JS.number (length (getRemoteStreams (connection p))))))
    ∧ head (calls (allocated s) out) = Some construct
    ∧ (well_allocated s →
       ∀ q, q ∈ peerConnections s → serial (connection q) ≠ serial (connection p'))
    ∧ length (peerConnections s') = length (peerConnections s)
    ∧ (∀ j, j ≠ k → peerConnections s' !! j = peerConnections s !! j)
    ∧ ids s' = ids s
    ∧ localStream s' = localStream s.
Proof.
  intros Hp.
  destruct (regenStream_spec s k p suppress Hp) as (out & Hrun & _ & _ & Hcalls & _).
  pose proof (regenStream_same_ids (Some k) suppress s) as Hids.
  rewrite Hrun in Hids.
  eexists _, out, _. split; [exact Hrun|]. simpl.
  split; [apply list_lookup_insert_eq; by eapply lookup_lt_Some|].
  do 2 (split; [done|]). split; [by rewrite Hcalls|].
  split; [intros Hwf q Hq; specialize (Hwf q Hq); simpl; lia|].
  split; [apply length_insert|].
  split; [intros j Hj; by apply list_lookup_insert_ne|].
  by split.
Qed.

End Regeneration.

(** C3 at a table with one peer that has sent a stream. *)
Lemma local_removal_suppresses_every_addstream_witness :
  ∃ s' out p',
    removeLocalStream (JS.boolean true)
      (State [Peer (PeerConnection 0 [7] (Some JS.undefined)) "b"] (Some 1) 1)
    = returned tt s' out
    ∧ peerConnections s' !! 0 = Some p'
    ∧ id p' = "b"
    ∧ serial (connection p') = 1 + 0
    ∧ handlers (connection p') = Some (JS.number 1)
    ∧ JS.truthy (JS.number 1) = true
    ∧ ∀ x s'', fire (JS.boolean true) p' (addstream_event x) s''
               = returned tt s''
                   (console (JS.boolean true) ("Remote stream added from " +:+ "b")
                    ++ console (JS.boolean true) "onaddstream event suppressed")
               ∧ notifications
                   (effects_of (fire (JS.boolean true) p' (addstream_event x) s'')) = [].
Proof.
  apply (local_removal_suppresses_every_addstream (JS.boolean true)
           (State [Peer (PeerConnection 0 [7] (Some JS.undefined)) "b"] (Some 1) 1)
           1 0 (Peer (PeerConnection 0 [7] (Some JS.undefined)) "b")).
  - reflexivity.
  - reflexivity.
  - discriminate.
Defined.

(** C3, as stated, fails: after the replacement the connection raises
    the event twice and neither is published; "swallowed exactly once"
    would publish the second. *)
Lemma second_addstream_is_swallowed_too :
  let s0 := State [Peer (PeerConnection 0 [7] (Some JS.undefined)) "b"] (Some 1) 1 in
  let s1 := state_of (removeLocalStream (JS.boolean true) s0) in
  ∃ p', peerConnections s1 !! 0 = Some p'
        ∧ notifications
            (effects_of ((fire (JS.boolean true) p' (addstream_event 7);;
                          fire (JS.boolean true) p' (addstream_event 7)) s1)) = []
        ∧ notifications
            (effects_of (fire (JS.boolean true) p' (addstream_event 7)
                           (state_of (fire (JS.boolean true) p' (addstream_event 7) s1))))
          ≠ [remoteStreamAdded 7 "b"].
Proof.
  eexists. split; [reflexivity|]. split; [reflexivity|]. discriminate.
Qed.

(** The table the examples start from: "b" has joined, the local stream
    is on, and "b" has sent a stream. *)
Lemma table_with_remote_stream_arises :
  run (JS.boolean true)
      [op_receive (Wire.newconnection "b"); op_gotUserMedia 1;
       op_remote_streams (Some 0) [7]]
      initial
  = State [Peer (PeerConnection 0 [7] (Some JS.undefined)) "b"] (Some 1) 1.
Proof. reflexivity. Qed.

(** The same table after the local stream was removed and "b" has sent
    its stream over the new connection. *)
Lemma table_after_local_removal_arises :
  run (JS.boolean true)
      [op_removeLocalStream; op_remote_streams (Some 0) [7]]
      (State [Peer (PeerConnection 0 [7] (Some JS.undefined)) "b"] (Some 1) 1)
  = State [Peer (PeerConnection 1 [7] (Some (JS.number 1))) "b"] None 2.
Proof. reflexivity. Qed.

(** C8 at that table, the replacement asked for by the remote side. *)
Lemma regenStream_replaces_connection_witness :
  ∃ s' out p',
    regenStream (JS.boolean true) (Some 0) JS.undefined
      (State [Peer (PeerConnection 1 [7] (Some (JS.number 1))) "b"] None 2)
    = returned tt s' out
    ∧ peerConnections s' !! 0 = Some p'
    ∧ id p' = "b"
    ∧ connection p' = PeerConnection 2 [] (Some (JS.and JS.undefined (JS.number 1)))
    ∧ head (calls 2 out) = Some construct
    ∧ (well_allocated (State [Peer (PeerConnection 1 [7] (Some (JS.number 1))) "b"] None 2) →
       ∀ q, q ∈ [Peer (PeerConnection 1 [7] (Some (JS.number 1))) "b"] →
            serial (connection q) ≠ serial (connection p'))
    ∧ length (peerConnections s') = 1
    ∧ (∀ j, j ≠ 0 → peerConnections s' !! j
                     = [Peer (PeerConnection 1 [7] (Some (JS.number 1))) "b"] !! j)
    ∧ ids s' = ["b"]
    ∧ localStream s' = None.
Proof.
  apply (regenStream_replaces_connection (JS.boolean true)
           (State [Peer (PeerConnection 1 [7] (Some (JS.number 1))) "b"] None 2)
           0 (Peer (PeerConnection 1 [7] (Some (JS.number 1))) "b") JS.undefined).
  reflexivity.
Defined.

(** C8, as stated, fails on the suppression state: the second peer of a
    received list is bound suppressed; when that peer then reports its
    stream removed, the replacement binds the new connection
    unsuppressed. *)
Lemma regenStream_rebinds_suppression :
  let s1 := state_of (on_message (JS.boolean true) (Wire.list_reply ["a"; "b"]) initial) in
  let s2 := state_of (on_message (JS.boolean true) (Wire.streamremoved_from "b") s1) in
  ∃ p1 p2,
    peerConnections s1 !! 1 = Some p1 ∧ peerConnections s2 !! 1 = Some p2
    ∧ id p1 = "b" ∧ id p2 = "b"
    ∧ handlers (connection p1) = Some (JS.number 1)
    ∧ handlers (connection p2) = Some JS.undefined
    ∧ notifications (effects_of (fire (JS.boolean true) p1 (addstream_event 7) s2)) = []
    ∧ notifications (effects_of (fire (JS.boolean true) p2 (addstream_event 7) s2))
      = [remoteStreamAdded 7 "b"].
Proof.
  eexists _, _. split; [reflexivity|]. split; [reflexivity|]. by repeat split.
Qed.

Section PeerList.
Variable debug : JS.value.

(** *** The loop of [generateConnections] *)

Lemma ids_prefix s s' i :
  peerConnections s `prefix_of` peerConnections s' → i ∈ ids s → i ∈ ids s'.
Proof.
  intros [tail Htail]. unfold ids. rewrite Htail, fmap_app, elem_of_app. by left.
Qed.

(** From index [k0] on, the loop leaves the table it found as a
    prefix and appends one entry for every id that was not yet there,
    bound with the index of the id's first occurrence. *)
Lemma generate_loop (peers : list string) : ∀ s k0,
  ∃ s' out,
    forEach_indexed (λ i index, addPeer debug i (JS.number index);; mret tt) peers k0 s
    = returned tt s' out
    ∧ peerConnections s `prefix_of` peerConnections s'
    ∧ (∀ p, p ∈ peerConnections s' →
            p ∈ peerConnections s
            ∨ ((id p ∉ ids s)
               ∧ ∃ j n, peers !! j = Some (id p)
                        ∧ (∀ j', j' < j → peers !! j' ≠ Some (id p))
                        ∧ p = fresh_peer n (JS.number (k0 + j)) (id p)))
    ∧ (∀ i, i ∈ peers → i ∈ ids s')
    ∧ notifications out = [].
Proof.
  induction peers as [|i0 rest IH]; intros s k0; cbn [forEach_indexed].
  - exists s, []. split; [done|]. split; [done|]. split; [by left|].
    split; [|done]. by intros i ?%elem_of_nil.
  - destruct (decide (i0 ∈ ids s)) as [Hin|Hnotin].
    + destruct (IH s (S k0)) as (s' & out & Hloop & Hpre & Hnew & Hall & Hn).
      exists s', out. split.
      { apply (bind_returned _ _ s tt s [] tt s' out); [|done].
        unfold mbind, M_bind. by rewrite addPeer_present. }
      split; [done|]. split; [|split; [|done]].
      * intros p [?|(Hp & j & n & Hj & Hfirst & ->)]%Hnew; [by left|].
        right. split; [done|]. exists (S j), n. simpl. split; [done|].
        split; [|by rewrite Nat.add_succ_r].
        intros [|j'] Hlt; simpl; [congruence|]. apply Hfirst. lia.
      * intros i [->|Hi]%elem_of_cons; [|by apply Hall].
        by apply (ids_prefix s s').
    + destruct (addPeer_absent debug s i0 (JS.number k0) Hnotin)
        as (out1 & Hadd & Hn1 & _).
      set (p0 := fresh_peer (allocated s) (JS.number k0) i0) in *.
      set (s1 := State (peerConnections s ++ [p0]) (localStream s) (S (allocated s))) in *.
      destruct (IH s1 (S k0)) as (s' & out & Hloop & Hpre & Hnew & Hall & Hn).
      assert (ids s1 = ids s ++ [i0]) as Hids1 by (unfold ids; simpl; by rewrite fmap_app).
      exists s', (out1 ++ out). split.
      { apply (bind_returned _ _ s tt s1 out1 tt s' out); [|done].
        unfold mbind, M_bind. rewrite Hadd. simpl. by rewrite app_nil_r. }
      split; [etrans; [|exact Hpre]; by apply prefix_app_r|].
      split; [|split].
      * intros p [Hp|(Hp & j & n & Hj & Hfirst & ->)]%Hnew.
        -- simpl in Hp. apply elem_of_app in Hp as [?| ->%list_elem_of_singleton];
             [by left|].
           right. split; [done|]. exists 0, (allocated s).
           split; [done|]. split; [intros; lia|]. by rewrite Nat.add_0_r.
        -- rewrite Hids1, elem_of_app, list_elem_of_singleton in Hp.
           right. split; [tauto|]. exists (S j), n. simpl. split; [done|].
           split; [|by rewrite Nat.add_succ_r].
           intros [|j'] Hlt; simpl; [intros [= Heq]; apply Hp; by right|].
           apply Hfirst. lia.
      * intros i [->|Hi]%elem_of_cons; [|by apply Hall].
        apply (ids_prefix s1 s'); [done|].
        rewrite Hids1, elem_of_app, list_elem_of_singleton. by right.
      * by rewrite notifications_app, Hn1, Hn.
Qed.

(** C4, amended. When a received list is processed, an id that is not
    yet in the table gets an entry whose handlers are bound with the
    index of the id's first place in the list as [suppress]: at index
    0 the entry publishes [remoteStreamAdded], at any later index it
    never does. The entries that were in the table are left as they
    are. *)
Theorem list_index_is_bound_as_suppress s (peers : list string) k i :
  peers !! k = Some i →
  i ∉ ids s →
  (∀ j, j < k → peers !! j ≠ Some i) →
  ∃ s' out,
    generateConnections debug peers s = returned tt s' out
    ∧ peerConnections s `prefix_of` peerConnections s'
    ∧ i ∈ ids s'
    ∧ ∀ p, p ∈ peerConnections s' → id p = i →
           handlers (connection p) = Some (JS.number k)
           ∧ ∀ x s'',
               notifications (effects_of (fire debug p (addstream_event x) s''))
               = if Nat.eqb k 0 then [remoteStreamAdded x i] else [].
Proof.
  intros Hk Hi Hfirst.
  destruct (generate_loop peers s 0) as (s' & out & Hloop & Hpre & Hnew & Hall & _).
  eexists s', _. split.
  { unfold generateConnections. eapply bind_returned; [|exact Hloop]. done. }
  split; [done|]. split; [by eapply Hall, list_elem_of_lookup_2|].
  intros p [Hp|(_ & j & n & Hj & Hjfirst & Hpeq)]%Hnew Hid.
  - destruct Hi. unfold ids. rewrite <-Hid. by apply list_elem_of_fmap_2.
  - rewrite Hid in *. assert (j = k) as ->.
    { destruct (Nat.lt_trichotomy j k) as [Hlt|[?|Hlt]]; [|done|].
      - by destruct (Hfirst j Hlt).
      - by destruct (Hjfirst k Hlt). }
    subst p. split; [done|]. intros x s''.
    rewrite fire_addstream_notifications. simpl. by destruct k.
Qed.

End PeerList.

(** C4 at the second place of a list received by a new client. *)
Lemma list_index_is_bound_as_suppress_witness :
  ∃ s' out,
    generateConnections (JS.boolean true) ["a"; "b"] initial = returned tt s' out
    ∧ peerConnections initial `prefix_of` peerConnections s'
    ∧ "b" ∈ ids s'
    ∧ ∀ p, p ∈ peerConnections s' → id p = "b" →
           handlers (connection p) = Some (JS.number 1)
           ∧ ∀ x s'',
               notifications
                 (effects_of (fire (JS.boolean true) p (addstream_event x) s''))
               = if Nat.eqb 1 0 then [remoteStreamAdded x "b"] else [].
Proof.
  apply (list_index_is_bound_as_suppress (JS.boolean true) initial ["a"; "b"] 1 "b").
  - reflexivity.
  - apply not_elem_of_nil.
  - intros j Hj. destruct j as [|j]; [discriminate|lia].
Defined.

(** C4, as stated, fails: [newconnection] for "b" arrives before the
    list; the peer at position 1 of the list is then not created by
    [generateConnections], keeps the unsuppressed handlers it was
    created with, and publishes [remoteStreamAdded]. *)
Lemma listed_peer_already_known_is_not_suppressed :
  let s0 := state_of (on_message (JS.boolean true) (Wire.newconnection "b") initial) in
  let o := on_message (JS.boolean true) (Wire.list_reply ["a"; "b"]) s0 in
  ids (state_of o) = ["b"; "a"]
  ∧ ∃ p, peerConnections (state_of o) !! 0 = Some p
         ∧ id p = "b"
         ∧ handlers (connection p) = Some JS.undefined
         ∧ calls (serial (connection p)) (effects_of o) = []
         ∧ notifications
             (effects_of (fire (JS.boolean true) p (addstream_event 7) (state_of o)))
           = [remoteStreamAdded 7 "b"].
Proof.
  split; [reflexivity|]. eexists. split; [reflexivity|]. by repeat split.
Qed.

(** *** Invariants of the table *)

#[local] Instance keeps_allocated_refl : Reflexive keeps_allocated.
Proof. intros s H. exact H. Qed.
#[local] Instance keeps_allocated_trans : Transitive keeps_allocated.
Proof. unfold keeps_allocated. intros s1 s2 s3 H1 H2 H. auto. Qed.

(** Walks through a method along its binds and branches. *)
Ltac step :=
  lazymatch goal with
  | |- relates _ (mret _) => apply relates_ret; apply _
  | |- relates _ (tell _) => apply relates_tell; apply _
  | |- relates _ get => apply relates_get; apply _
  | |- relates _ (deref _) => apply relates_deref; apply _
  | |- relates _ throw => apply relates_throw; apply _
  | |- relates _ (mbind _ _) => apply relates_bind; [apply _| |intros ?]
  | |- relates _ (forEach _ _) => apply relates_forEach; [apply _|apply _|intros ?]
  | |- relates _ (match ?x with _ => _ end) => destruct x
  end.

Ltac steps := repeat step.

Section Invariant.
Variable debug : JS.value.

(** A relation that holds across the four writes of the program holds
    across every operation. *)
Context (R : relation SignallerPeerConnection) `{!Reflexive R, !Transitive R}.
Hypothesis R_addPeer : ∀ i suppress, relates R (addPeer debug i suppress).
Hypothesis R_regenStream : ∀ r suppress, relates R (regenStream debug r suppress).
Hypothesis R_splice : ∀ (matches : peer → bool) s,
  R s (State (JS.forEach_splice matches (length (peerConnections s)) 0
                                (peerConnections s)).1
             (localStream s) (allocated s)).
Hypothesis R_localStream : ∀ s stream,
  R s (State (peerConnections s) stream (allocated s)).
Hypothesis R_remote_streams : ∀ r streams,
  relates R (remote_streams_changed r streams).

Lemma R_getPeer i : relates R (getPeer debug i).
Proof using All. unfold getPeer. steps. apply R_addPeer. Qed.

Lemma R_addStreamToPeer stream p : relates R (addStreamToPeer debug stream p).
Proof using Reflexive0 Transitive0.
  unfold addStreamToPeer, createOffer, log. steps.
Qed.

Lemma R_invoke cb p d : relates R (invoke debug cb p d).
Proof using Reflexive0 Transitive0.
  unfold invoke, sendOffer, sendAnswer, peerConnected, logError, log. steps.
Qed.

Lemma R_fire p e : relates R (fire debug p e).
Proof using Reflexive0 Transitive0.
  unfold fire, log, log_verbose. steps.
Qed.

Lemma R_generateConnections peers : relates R (generateConnections debug peers).
Proof using All.
  unfold generateConnections, log. steps.
  apply relates_forEach_indexed; [apply _|apply _|]. intros i index.
  steps. apply R_addPeer.
Qed.

Lemma R_createAnswer sender offer : relates R (createAnswer debug sender offer).
Proof using All. unfold createAnswer, log. steps. apply R_getPeer. Qed.

Lemma R_handleAnswer sender answer : relates R (handleAnswer debug sender answer).
Proof using All. unfold handleAnswer, log. steps. apply R_getPeer. Qed.

Lemma R_receiveIceCandidate data : relates R (receiveIceCandidate debug data).
Proof using All. unfold receiveIceCandidate, log_verbose. steps. apply R_getPeer. Qed.

Lemma R_disconnectConnection i : relates R (disconnectConnection debug i).
Proof using All.
  unfold disconnectConnection, log. steps; [apply R_getPeer|].
  apply relates_modify. intros s. apply R_splice.
Qed.

Lemma R_peerConnected i : relates R (peerConnected debug i).
Proof using Reflexive0 Transitive0. unfold peerConnected, log. steps. Qed.

Lemma R_removeRemoteStream i : relates R (removeRemoteStream debug i).
Proof using All.
  unfold removeRemoteStream, log. steps; [apply R_getPeer|apply R_regenStream].
Qed.

Lemma R_gotUserMedia stream : relates R (gotUserMedia debug stream).
Proof using All.
  unfold gotUserMedia, addStream, log. steps.
  - apply relates_modify. intros s. apply R_localStream.
  - apply R_addStreamToPeer.
Qed.

Lemma R_removeLocalStream : relates R (removeLocalStream debug).
Proof using All.
  unfold removeLocalStream. steps.
  - apply relates_modify. intros s'. apply R_localStream.
  - apply relates_forEach_indexed; [apply _|apply _|]. intros q index.
    unfold remove_from, log. steps. apply R_regenStream.
Qed.

Lemma R_on_message m : relates R (on_message debug m).
Proof using All.
  destruct m; cbn [on_message].
  - unfold getPeerList. steps.
  - apply R_generateConnections.
  - steps. apply R_addPeer.
  - apply R_createAnswer.
  - apply R_handleAnswer.
  - apply R_peerConnected.
  - apply R_receiveIceCandidate.
  - apply R_removeRemoteStream.
  - apply R_disconnectConnection.
Qed.

Lemma R_perform o : relates R (perform debug o).
Proof using All.
  destruct o; cbn [perform].
  - apply R_on_message.
  - apply R_remote_streams.
  - steps. apply R_addPeer.
  - steps. apply R_getPeer.
  - apply R_generateConnections.
  - apply R_createAnswer.
  - apply R_handleAnswer.
  - apply R_receiveIceCandidate.
  - apply R_disconnectConnection.
  - apply R_peerConnected.
  - unfold getPeerList. steps.
  - apply R_removeRemoteStream.
  - unfold addLocalStream. steps.
  - apply R_gotUserMedia.
  - apply R_removeLocalStream.
  - apply R_invoke.
  - apply R_fire.
Qed.
End Invariant.

Section Operations.
Variable debug : JS.value.

Lemma regenStream_keeps_allocated r suppress :
  relates keeps_allocated (regenStream debug r suppress).
Proof.
  intros s Hs. destruct r as [k|]; [|done].
  destruct (peerConnections s !! k) as [p|] eqn:Hp.
  - destruct (regenStream_spec debug s k p suppress Hp) as (out & -> & _).
    intros q [j Hj]%list_elem_of_lookup. simpl in *.
    apply list_lookup_insert_Some in Hj as [(_ & <- & _)|[_ Hj]]; simpl; [lia|].
    apply list_elem_of_lookup_2, Hs in Hj. lia.
  - unfold regenStream, deref. run. by rewrite Hp.
Qed.

Lemma addPeer_keeps_allocated i suppress :
  relates keeps_allocated (addPeer debug i suppress).
Proof.
  intros s Hs. destruct (decide (i ∈ ids s)) as [Hi|Hi].
  - by rewrite addPeer_present.
  - destruct (addPeer_absent debug s i suppress Hi) as (out & -> & _).
    intros q. simpl. intros [Hq| ->%list_elem_of_singleton]%elem_of_app; simpl; [|lia].
    apply Hs in Hq. lia.
Qed.

Lemma remote_streams_same_ids r streams :
  relates same_ids (remote_streams_changed r streams).
Proof.
  intros s. unfold remote_streams_changed, deref. run.
  destruct r as [k|]; [|done]. simpl.
  destruct (peerConnections s !! k) as [p|] eqn:Hp; [|done]. simpl.
  unfold same_ids, ids. simpl. rewrite list_fmap_insert. simpl.
  apply list_insert_id. by rewrite list_lookup_fmap, Hp.
Qed.

Lemma remote_streams_keeps_allocated r streams :
  relates keeps_allocated (remote_streams_changed r streams).
Proof.
  intros s Hs. unfold remote_streams_changed, deref. run.
  destruct r as [k|]; [|done]. simpl.
  destruct (peerConnections s !! k) as [p|] eqn:Hp; [|done]. simpl.
  intros q [j Hj]%list_elem_of_lookup. simpl in *.
  apply list_lookup_insert_Some in Hj as [(_ & <- & _)|[_ Hj]]; simpl.
  - by apply Hs, (list_elem_of_lookup_2 _ k).
  - by apply Hs, (list_elem_of_lookup_2 _ j).
Qed.

Lemma perform_keeps_allocated o : relates keeps_allocated (perform debug o).
Proof.
  apply R_perform; try apply _.
  - apply addPeer_keeps_allocated.
  - apply regenStream_keeps_allocated.
  - intros matches s Hs q Hq. simpl in *. apply Hs.
    eapply elem_of_sublist; [exact Hq|apply forEach_splice_sublist].
  - by intros s stream Hs.
  - apply remote_streams_keeps_allocated.
Qed.

Lemma perform_keeps_NoDup o : relates keeps_NoDup (perform debug o).
Proof.
  apply R_perform; try apply _.
  - apply addPeer_keeps_NoDup.
  - intros r suppress. apply same_ids_NoDup, regenStream_same_ids.
  - intros matches s Hs. unfold ids in *. simpl.
    apply (sublist_NoDup _ _ Hs), fmap_sublist, forEach_splice_sublist.
  - by intros s stream Hs.
  - intros r streams. apply same_ids_NoDup, remote_streams_same_ids.
Qed.

(** C7. The table of a new orchestrator has no id twice, and no
    operation, whatever it is called with and whether it returns or
    throws, leaves a table with an id twice when it started from one
    without. *)
Theorem one_entry_per_id (o : operation) s :
  NoDup (ids s) →
  NoDup (ids initial) ∧ NoDup (ids (state_of (perform debug o s))).
Proof.
  intros Hs. split; [apply NoDup_nil_2|]. by apply perform_keeps_NoDup.
Qed.

(** *** [handleAnswer] *)


End Operations.

(** C7 at an answer received by a new orchestrator. *)
Lemma one_entry_per_id_witness :
  NoDup (ids initial)
  ∧ NoDup (ids (state_of (perform (JS.boolean true)
                            (op_handleAnswer "a" "v=0") initial))).
Proof.
  apply (one_entry_per_id (JS.boolean true)
           (op_handleAnswer "a" "v=0") initial).
  apply NoDup_nil_2.
Defined.


Section Disconnect.
Variable debug : JS.value.

(** *** [disconnectConnection] *)

(** C10, amended. From a table with no id twice,
    [disconnectConnection i] returns with no entry for [i] left, every
    other entry kept, and [peerDisconnected i] then
    [remoteStreamRemoved i] published, each once and nothing else.
    When [i] had an entry its connection is closed. When it had none,
    the table ends as it began: [getPeer] first constructs a
    connection and appends an entry for [i]; with a local stream that
    stream is added to the new connection and an offer is requested
    from it; then the connection is closed and the entry spliced out.
    Nothing is sent to the relay meanwhile: the offer goes out, to
    [i], only when the connection calls back with it. *)
Theorem disconnectConnection_removes_and_notifies s i :
  NoDup (ids s) →
  ∃ s' out,
    disconnectConnection debug i s = returned tt s' out
    ∧ (i ∉ ids s')
    ∧ notifications out = [peerDisconnected i; remoteStreamRemoved i]
    ∧ (∀ q, q ∈ peerConnections s → id q ≠ i → q ∈ peerConnections s')
    ∧ (∀ p, p ∈ peerConnections s → id p = i →
            calls (serial (connection p)) out = [close_call])
    ∧ (i ∉ ids s →
       peerConnections s' = peerConnections s
       ∧ calls (allocated s) out
         = construct :: (match localStream s with
                         | Some stream =>
                             [addStream_call stream;
                              createOffer_call offer_created logError_callback]
                         | None => []
                         end ++ [close_call])
       ∧ sent out = []
       ∧ ∀ d s'',
           sent (effects_of (invoke debug offer_created
                               (fresh_peer (allocated s) JS.undefined i) d s''))
           = [Wire.offer i d]).
Proof.
  intros Hs.
  destruct (getPeer_spec debug s i)
    as (k & p & s1 & out1 & Hget & Hk & Hid & Hpresent & Habsent).
  pose proof (getPeer_keeps_NoDup debug i s Hs) as Hs1. rewrite Hget in Hs1.
  simpl in Hs1.
  set (matches := λ peer : peer, String.eqb (id peer) i).
  eexists _, _. split.
  { unfold disconnectConnection. eapply bind_returned; [exact Hget|].
    unfold deref. run. rewrite Hk. reflexivity. }
  simpl. split; [|split; [|split; [|split]]].
  - unfold ids. simpl. intros (q & Hq & Hin)%list_elem_of_fmap.
    assert (matches q = false) as Hfalse.
    { apply (forEach_splice_unique matches (length (peerConnections s1)) 0
               (peerConnections s1)); [lia| |intros; lia|done].
      intros a b x y Ha Hb Hx%String.eqb_eq Hy%String.eqb_eq.
      apply (NoDup_lookup _ a b i Hs1); unfold ids;
        rewrite list_lookup_fmap; [by rewrite Ha; simpl; f_equal
                                  |by rewrite Hb; simpl; f_equal]. }
    unfold matches in Hfalse. rewrite <-Hq, String.eqb_refl in Hfalse. done.
  - assert (notifications out1 = []) as Hn.
    { destruct (decide (i ∈ ids s)) as [Hin|Hout].
      - by destruct (Hpresent Hin) as [_ ->].
      - by destruct (Habsent Hout) as (_ & _ & _ & ? & _). }
    read_effects. rewrite Hn. by console_cases debug.
  - intros q Hq Hne. apply forEach_splice_keeps.
    + destruct (decide (i ∈ ids s)) as [Hin|Hout].
      * by destruct (Hpresent Hin) as [-> _].
      * destruct (Habsent Hout) as (_ & _ & -> & _). simpl.
        apply elem_of_app. by left.
    + by apply String.eqb_neq.
  - intros q Hq Hqid.
    assert (i ∈ ids s) as Hin
      by (unfold ids; rewrite <-Hqid; by apply list_elem_of_fmap_2).
    destruct (Hpresent Hin) as [-> ->].
    assert (q = p) as ->.
    { apply list_elem_of_lookup in Hq as [j Hj].
      assert (j = k) as ->; [|congruence].
      apply (NoDup_lookup _ j k i Hs); unfold ids;
        rewrite list_lookup_fmap; [by rewrite Hj; simpl; f_equal
                                  |by rewrite Hk; simpl; f_equal]. }
    read_effects. rewrite Nat.eqb_refl. by console_cases debug.
  - intros Hout.
    destruct (Habsent Hout) as (-> & -> & -> & _ & Hsent & Hcalls & _).
    simpl. split; [|split; [|split]].
    + rewrite forEach_splice_last; [done| |apply String.eqb_refl].
      intros y Hy. apply String.eqb_neq. intros <-.
      apply Hout. unfold ids. by apply list_elem_of_fmap_2.
    + read_effects. rewrite Hcalls, Nat.eqb_refl.
      console_cases debug; by destruct (localStream s).
    + read_effects. rewrite Hsent. by console_cases debug.
    + intros d s''. unfold invoke. run. read_effects. by console_cases debug.
Qed.

End Disconnect.

(** C10 at a disconnect for an unknown id while a local stream is
    there. *)
Lemma disconnectConnection_removes_and_notifies_witness :
  ∃ s' out,
    disconnectConnection (JS.boolean true) "b" (State [] (Some 1) 0) = returned tt s' out
    ∧ ("b" ∉ ids s')
    ∧ notifications out = [peerDisconnected "b"; remoteStreamRemoved "b"]
    ∧ (∀ q, q ∈ [] → id q ≠ "b" → q ∈ peerConnections s')
    ∧ (∀ p, p ∈ [] → id p = "b" → calls (serial (connection p)) out = [close_call])
    ∧ ("b" ∉ ids (State [] (Some 1) 0) →
       peerConnections s' = []
       ∧ calls 0 out
         = [construct; addStream_call 1;
            createOffer_call offer_created logError_callback; close_call]
       ∧ sent out = []
       ∧ ∀ d s'',
           sent (effects_of (invoke (JS.boolean true) offer_created
                               (fresh_peer 0 JS.undefined "b") d s''))
           = [Wire.offer "b" d]).
Proof.
  apply (disconnectConnection_removes_and_notifies (JS.boolean true)
           (State [] (Some 1) 0) "b").
  apply NoDup_nil_2.
Defined.

(** C10, as stated, fails on the offer: with a local stream and no
    entry for "b", the disconnect constructs a connection, adds the
    stream, requests an offer and closes the connection, and returns
    with the table empty again; no offer has been sent by then. *)
Lemma no_offer_sent_before_close :
  let o := disconnectConnection (JS.boolean true) "b" (State [] (Some 1) 0) in
  calls 0 (effects_of o)
  = [construct; addStream_call 1;
     createOffer_call offer_created logError_callback; close_call]
  ∧ sent (effects_of o) = []
  ∧ (∀ d, Wire.offer "b" d ∉ sent (effects_of o))
  ∧ peerConnections (state_of o) = [].
Proof.
  split; [reflexivity|]. split; [reflexivity|]. split; [|reflexivity].
  intros d. apply not_elem_of_nil.
Qed.

End ClientFacts.

(** ** More on the splice-while-visiting loop *)

Section forEach_splice_more.
Context {A : Type} (matches : A → bool).

(** Past the end of the array the visit finds nothing. *)
Lemma forEach_splice_past len k (arr : list A) :
  length arr ≤ k → JS.forEach_splice matches len k arr = (arr, []).
Proof.
  revert k. induction len as [|len IH]; intros k Hk; simpl; [done|].
  rewrite (lookup_ge_None_2 arr k) by done. apply IH. lia.
Qed.

(** Visits beyond the length read at the start change nothing. *)
Lemma forEach_splice_fuel extra : ∀ len k (arr : list A),
  length arr ≤ k + len →
  JS.forEach_splice matches (len + extra) k arr = JS.forEach_splice matches len k arr.
Proof.
  induction len as [|len IH]; intros k arr Hlen; simpl.
  - rewrite forEach_splice_past by lia. done.
  - destruct (arr !! k) as [x|] eqn:Hk.
    + destruct (matches x).
      * rewrite IH; [done|]. rewrite length_delete by eauto. lia.
      * apply IH. lia.
    + apply IH. lia.
Qed.

(** One visit that finds a match. *)
Lemma forEach_splice_match len k (arr : list A) x :
  arr !! k = Some x → matches x = true →
  JS.forEach_splice matches (S len) k arr
  = ((JS.forEach_splice matches len (S k) (delete k arr)).1,
     x :: (JS.forEach_splice matches len (S k) (delete k arr)).2).
Proof.
  intros Hk Hx. simpl. rewrite Hk, Hx.
  by destruct (JS.forEach_splice matches len (S k) (delete k arr)).
Qed.

(** An untouched front part of the array only shifts the indices. *)
Lemma forEach_splice_shift (pre : list A) : ∀ len k (arr : list A),
  JS.forEach_splice matches len (length pre + k) (pre ++ arr)
  = (pre ++ (JS.forEach_splice matches len k arr).1,
     (JS.forEach_splice matches len k arr).2).
Proof.
  induction len as [|len IH]; intros k arr; simpl; [done|].
  rewrite lookup_app_r, Nat.add_comm, Nat.add_sub by lia.
  rewrite (Nat.add_comm k), <-Nat.add_succ_r.
  destruct (arr !! k) as [x|] eqn:Hk; [|apply IH].
  destruct (matches x); [|apply IH].
  replace (delete (length pre + k) (pre ++ arr)) with (pre ++ delete k arr).
  - rewrite IH. by destruct (JS.forEach_splice matches len (S k) (delete k arr)).
  - rewrite !delete_take_drop, take_app_add', <-Nat.add_succ_r, drop_app_add',
      app_assoc; done.
Qed.

(** The element that follows a spliced one moves into the index just
    visited and is never looked at. *)
Lemma forEach_splice_next (pre post : list A) x y :
  (∀ z, z ∈ pre → matches z = false) → matches x = true →
  (JS.forEach_splice matches (length (pre ++ x :: y :: post)) 0
                     (pre ++ x :: y :: post)).1
  = pre ++ y :: (JS.forEach_splice matches (length post) 0 post).1.
Proof.
  intros Hpre Hx. rewrite length_app. cbn [length].
  rewrite forEach_splice_skip.
  - rewrite Nat.add_0_l.
    rewrite (forEach_splice_match _ _ _ x) by (done || by apply list_lookup_middle).
    cbn [fst]. rewrite delete_middle.
    replace (pre ++ y :: post) with ((pre ++ [y]) ++ post)
      by (by rewrite <-app_assoc).
    replace (S (length pre)) with (length (pre ++ [y]) + 0)
      by (rewrite length_app; simpl; lia).
    rewrite forEach_splice_shift. cbn [fst].
    rewrite <-(Nat.add_1_r (length post)), forEach_splice_fuel by lia.
    by rewrite <-app_assoc.
  - intros j z Hj Hz. apply Hpre, (list_elem_of_lookup_2 _ j).
    by rewrite lookup_app_l in Hz by lia.
Qed.
End forEach_splice_more.

(** ** More on the relay *)

Module RelayMore.
Import Wire Relay Protocol RelayFacts.

Lemma findSocket_snoc cs c i :
  findSocket (cs ++ [c]) i
  = if String.eqb (id c) i then Some c else findSocket cs i.
Proof. unfold findSocket. by rewrite fold_left_app. Qed.


Lemma findSocket_Some_id cs i c : findSocket cs i = Some c → id c = i.
Proof.
  induction cs as [|x cs IH] using rev_ind; [done|].
  rewrite findSocket_snoc.
  destruct (String.eqb_spec (id x) i) as [Heq|Hne]; [by intros [= <-]|done].
Qed.


Section Signaller.
Variable debug : JS.value.

Lemma deliveries_log msg : deliveries (log debug msg) = [].
Proof. unfold log. by destruct (JS.truthy debug). Qed.

Lemma deliveries_log_verbose msg : deliveries (log_verbose debug msg) = [].
Proof. unfold log_verbose. by destruct (JS.truthy debug && JS.is_verbose debug). Qed.

Lemma deliveries_emit to m out :
  deliveries (emit to m :: out) = emit to m :: deliveries out.
Proof. done. Qed.

Lemma deliveries_app out1 out2 :
  deliveries (out1 ++ out2) = deliveries out1 ++ deliveries out2.
Proof. apply List.filter_app. Qed.

Lemma forwarded_deliveries sg this m target recipient :
  target_of m = Some target →
  findSocket (clients sg) target = Some recipient →
  ∃ m', relayed (id this) m = Some m'
        ∧ deliveries (step debug sg (message this m)).2 = [emit recipient m'].
Proof.
  intros Hm Hfind.
  destruct m; cbn [target_of] in Hm; simplify_eq;
    cbn [step on_message]; rewrite Hfind; cbn [snd relayed];
    eexists; (split; [reflexivity|]);
    by rewrite ?deliveries_emit, ?deliveries_app, ?deliveries_emit,
         ?deliveries_log, ?deliveries_log_verbose.
Qed.

(** A routed message whose target resolves is delivered once, to the
    socket registered last under the target id and to nobody else,
    with the sender's id in place of the target and the payload as it
    came; the registry is not written. *)
Theorem routed_message_is_forwarded (sg : signaller) (this : socket) (m : to_relay)
    (target : string) (recipient : socket) :
  target_of m = Some target →
  findSocket (clients sg) target = Some recipient →
  (step debug sg (message this m)).1 = sg
  ∧ id recipient = target
  ∧ ∃ m', relayed (id this) m = Some m'
          ∧ deliveries (step debug sg (message this m)).2 = [emit recipient m'].
Proof.
  intros Hm Hfind. split; [apply on_message_state|].
  split; [by eapply findSocket_Some_id|]. by eapply forwarded_deliveries.
Qed.

(** A socket that joins under an id not yet registered and asks for
    the list is sent the ids of everybody registered before it, in
    registry order. *)
Theorem newcomer_is_sent_prior_members (sg : signaller) (s : socket) :
  id s ∉ registered sg →
  deliveries (step debug (step debug sg (connection s)).1 (message s list_request)).2
  = [emit s (list_reply (registered sg))].
Proof.
  intros Hfresh. cbn [step on_connection on_message fst snd clients].
  rewrite deliveries_emit, deliveries_log. do 3 f_equal.
  rewrite getUserIds_filter, fmap_app, filter_app. simpl.
  rewrite filter_cons_False, filter_nil, app_nil_r by (by intros ?).
  unfold registered in *. induction (clients sg) as [|c cs IH]; [done|].
  simpl in *. apply not_elem_of_cons in Hfresh as [Hne Hfresh].
  rewrite filter_cons_True by done. f_equal. by apply IH.
Qed.

(** Joining under an id not yet registered and then closing gives the
    registry back as it was. *)
Theorem join_then_close_restores (sg : signaller) (s : socket) :
  id s ∉ registered sg →
  (step debug (step debug sg (connection s)).1 (close s)).1 = sg.
Proof.
  intros Hfresh. simpl. unfold on_close, removeUser. simpl.
  rewrite forEach_splice_last.
  - by destruct sg.
  - intros y Hy. apply String.eqb_neq. intros Heq. apply Hfresh.
    unfold registered. rewrite <-Heq. by apply list_elem_of_fmap_2.
  - apply String.eqb_refl.
Qed.

Lemma on_close_deliveries sg this :
  deliveries (on_close debug sg this).2 = [room_emit (disconnect (id this))].
Proof.
  unfold on_close, removeUser.
  destruct (JS.forEach_splice _ _ _ _) as [cs gone]. simpl.
  rewrite deliveries_app. simpl.
  replace (deliveries (flat_map _ gone)) with (@nil effect); [done|].
  induction gone as [|c gone IH]; [done|]. simpl.
  by rewrite deliveries_app, deliveries_log.
Qed.

(** In a registry with no id twice, a close removes the sender's
    entry and nothing else, keeps the order of the rest, makes the id
    unresolvable, and tells the whole room once. *)
Theorem close_removes_the_sender (sg : signaller) (this : socket) :
  NoDup (registered sg) →
  let sg' := (step debug sg (close this)).1 in
  clients sg' = filter (λ c, id c ≠ id this) (clients sg)
  ∧ roomName sg' = roomName sg
  ∧ findSocket (clients sg') (id this) = None
  ∧ deliveries (step debug sg (close this)).2 = [room_emit (disconnect (id this))].
Proof.
  intros Hnodup sg'.
  assert (clients sg' = filter (λ c, id c ≠ id this) (clients sg)) as Hclients
    by (by apply on_close_filter).
  split; [done|]. split.
  { unfold sg'. simpl. unfold on_close, removeUser.
    by destruct (JS.forEach_splice _ _ _ _). }
  split; [|apply on_close_deliveries].
  apply findSocket_None. rewrite Hclients.
  intros (c & Hc & Hin)%list_elem_of_fmap.
  apply list_elem_of_filter in Hin as [Hne _]. by destruct Hne.
Qed.

(** Two entries in a row under the id that leaves: the loop of
    [removeUser] splices the first, steps over the second, and the id
    is still registered afterwards. *)
Theorem close_steps_over_the_next_entry (sg : signaller) (this : socket)
    (pre post : list socket) (c c' : socket) :
  clients sg = pre ++ c :: c' :: post →
  id this ∉ id <$> pre →
  id c = id this →
  let sg' := (step debug sg (close this)).1 in
  ∃ rest, clients sg' = pre ++ c' :: rest
          ∧ (id c' = id this → id this ∈ registered sg').
Proof.
  intros Hsplit Hpre Hc sg'.
  assert (∃ rest, clients sg' = pre ++ c' :: rest) as [rest Hrest].
  { unfold sg'. simpl. rewrite on_close_clients, removeUser_clients, Hsplit.
    eexists. apply forEach_splice_next.
    - intros y Hy. apply String.eqb_neq. intros Heq. apply Hpre.
      rewrite <-Heq. by apply list_elem_of_fmap_2.
    - by apply String.eqb_eq. }
  exists rest. split; [done|]. intros Hc'.
  unfold registered. rewrite Hrest, fmap_app, elem_of_app. right.
  simpl. rewrite Hc'. left.
Qed.

(** As long as no socket connects under an id that is registered, no
    event leaves an id registered twice. *)
Theorem registry_ids_stay_unique (sg : signaller) (e : event) :
  NoDup (registered sg) →
  (∀ s, e = connection s → id s ∉ registered sg) →
  NoDup (registered (step debug sg e).1).
Proof.
  intros Hnodup Hfresh. destruct e as [s|this m|this].
  - unfold registered in *. simpl. rewrite fmap_app. apply NoDup_app.
    split; [done|]. split; [|apply NoDup_singleton].
    intros x Hx ->%list_elem_of_singleton. by apply (Hfresh s).
  - simpl. by rewrite on_message_state.
  - unfold registered in *. refine (sublist_NoDup _ _ Hnodup _).
    apply fmap_sublist. simpl. rewrite on_close_clients. apply removeUser_sublist.
Qed.

End Signaller.

Lemma routed_message_is_forwarded_witness :
  (step (JS.boolean true) (Signaller "default" [Socket "a"; Socket "b"])
        (message (Socket "a") (offer "b" "v=0"))).1
  = Signaller "default" [Socket "a"; Socket "b"]
  ∧ id (Socket "b") = "b"
  ∧ ∃ m', relayed (id (Socket "a")) (offer "b" "v=0") = Some m'
          ∧ deliveries
              (step (JS.boolean true) (Signaller "default" [Socket "a"; Socket "b"])
                    (message (Socket "a") (offer "b" "v=0"))).2
            = [emit (Socket "b") m'].
Proof.
  apply (routed_message_is_forwarded (JS.boolean true)
           (Signaller "default" [Socket "a"; Socket "b"]) (Socket "a")
           (offer "b" "v=0") "b" (Socket "b")); reflexivity.
Defined.

Lemma newcomer_is_sent_prior_members_witness :
  deliveries
    (step (JS.boolean true)
          (step (JS.boolean true) (Signaller "default" [Socket "a"])
                (connection (Socket "b"))).1
          (message (Socket "b") list_request)).2
  = [emit (Socket "b") (list_reply (registered (Signaller "default" [Socket "a"])))].
Proof.
  apply (newcomer_is_sent_prior_members (JS.boolean true)
           (Signaller "default" [Socket "a"]) (Socket "b")).
  unfold registered. simpl. intros [[=]|[]%elem_of_nil]%elem_of_cons.
Defined.

Lemma join_then_close_restores_witness :
  (step (JS.boolean true)
        (step (JS.boolean true) (Signaller "default" [Socket "a"])
              (connection (Socket "b"))).1
        (close (Socket "b"))).1
  = Signaller "default" [Socket "a"].
Proof.
  apply (join_then_close_restores (JS.boolean true)
           (Signaller "default" [Socket "a"]) (Socket "b")).
  unfold registered. simpl. intros [[=]|[]%elem_of_nil]%elem_of_cons.
Defined.

Lemma close_removes_the_sender_witness :
  let sg := Signaller "default" [Socket "a"; Socket "b"] in
  let sg' := (step (JS.boolean true) sg (close (Socket "a"))).1 in
  clients sg' = filter (λ c, id c ≠ id (Socket "a")) (clients sg)
  ∧ roomName sg' = roomName sg
  ∧ findSocket (clients sg') (id (Socket "a")) = None
  ∧ deliveries (step (JS.boolean true) sg (close (Socket "a"))).2
    = [room_emit (disconnect (id (Socket "a")))].
Proof.
  apply (close_removes_the_sender (JS.boolean true)
           (Signaller "default" [Socket "a"; Socket "b"]) (Socket "a")).
  unfold registered. simpl. apply NoDup_cons. split.
  - intros [[=]|[]%elem_of_nil]%elem_of_cons.
  - apply NoDup_singleton.
Defined.

Lemma close_steps_over_the_next_entry_witness :
  let sg := Signaller "default" [Socket "a"; Socket "b"; Socket "b"] in
  let sg' := (step (JS.boolean true) sg (close (Socket "b"))).1 in
  ∃ rest, clients sg' = [Socket "a"] ++ Socket "b" :: rest
          ∧ (id (Socket "b") = id (Socket "b") → id (Socket "b") ∈ registered sg').
Proof.
  apply (close_steps_over_the_next_entry (JS.boolean true)
           (Signaller "default" [Socket "a"; Socket "b"; Socket "b"]) (Socket "b")
           [Socket "a"] [] (Socket "b") (Socket "b")).
  - reflexivity.
  - simpl. intros [[=]|[]%elem_of_nil]%elem_of_cons.
  - reflexivity.
Defined.

Lemma registry_ids_stay_unique_witness :
  NoDup (registered (step (JS.boolean true) (Signaller "default" [Socket "a"])
                          (connection (Socket "b"))).1).
Proof.
  apply (registry_ids_stay_unique (JS.boolean true)
           (Signaller "default" [Socket "a"]) (connection (Socket "b"))).
  - unfold registered. simpl. apply NoDup_singleton.
  - intros s [= <-]. unfold registered. simpl.
    intros [[=]|[]%elem_of_nil]%elem_of_cons.
Defined.

End RelayMore.

(** ** More on the orchestrator *)

Module ClientMore.
Import Client Protocol ClientFacts.

Lemma rtc_calls_app out1 out2 : rtc_calls (out1 ++ out2) = rtc_calls out1 ++ rtc_calls out2.
Proof. apply flat_map_app. Qed.

Lemma rtc_calls_cons e out :
  rtc_calls (e :: out)
  = match e with rtc n c => [(n, c)] | _ => [] end ++ rtc_calls out.
Proof. done. Qed.

(** Pushes all four readings through an effect list. *)
Ltac read_all :=
  repeat progress
    rewrite ?notifications_app, ?sent_app, ?calls_app, ?rtc_calls_app,
      ?notifications_cons, ?sent_cons, ?calls_cons, ?rtc_calls_cons;
  simpl.

Lemma find_peer_snoc peers p i k found :
  find_peer (peers ++ [p]) i k found
  = if String.eqb (id p) i then Some (k + length peers) else find_peer peers i k found.
Proof.
  revert k found. induction peers as [|q peers IH]; intros k found; simpl.
  - by rewrite Nat.add_0_r.
  - rewrite IH. by rewrite Nat.add_succ_r.
Qed.

Section Orchestrator.
Variable debug : JS.value.

(** *** [addPeer] and [getPeer] *)

Lemma addPeer_adds s i suppress : i ∈ ids (state_of (addPeer debug i suppress s)).
Proof.
  destruct (decide (i ∈ ids s)) as [Hin|Hout].
  - by rewrite addPeer_present.
  - destruct (addPeer_absent debug s i suppress Hout) as (out & -> & _).
    unfold ids. simpl. rewrite fmap_app, elem_of_app. right.
    simpl. apply list_elem_of_singleton. done.
Qed.

(** After [addPeer] the id has an entry, and adding it again, with
    whatever [suppress], returns [undefined] without touching the
    table, the connections or the relay. *)
Theorem addPeer_again_does_nothing s i suppress suppress' :
  let s1 := state_of (addPeer debug i suppress s) in
  hasPeer (peerConnections s1) i = true
  ∧ addPeer debug i suppress' s1 = returned None s1 [].
Proof.
  intros s1. pose proof (addPeer_adds s i suppress) as Hin. fold s1 in Hin.
  split; [by rewrite hasPeer_elem_of, bool_decide_eq_true_2|].
  by apply addPeer_present.
Qed.

(** [getPeer] hands out a reference to an entry with the id asked
    for, leaves the entries that were there in place, and asked again
    hands out the same reference without creating or asking for
    anything. *)
Theorem getPeer_gets_or_creates s i :
  ∃ k p s' out,
    getPeer debug i s = returned (Some k) s' out
    ∧ peerConnections s' !! k = Some p
    ∧ id p = i
    ∧ peerConnections s `prefix_of` peerConnections s'
    ∧ getPeer debug i s' = returned (Some k) s' [].
Proof.
  destruct (getPeer_spec debug s i)
    as (k & p & s' & out & Hget & Hk & Hid & Hpresent & Habsent).
  exists k, p, s', out. do 3 (split; [done|]).
  destruct (decide (i ∈ ids s)) as [Hin|Hout].
  - destruct (Hpresent Hin) as [-> ->]. by split.
  - destruct (Habsent Hout) as (-> & Hp & -> & _). simpl.
    split; [by apply prefix_app_r|].
    unfold getPeer. run. rewrite find_peer_snoc, Hid, String.eqb_refl. done.
Qed.


(** *** The handlers that look a peer up *)

(** What the handlers of this shape do from a table where the id has
    an entry or not. *)
Lemma with_peer_returns s i (rest : peer → list effect) :
  ∃ k p s' out,
    (r ← getPeer debug i; peer ← deref r; tell (rest peer)) s
    = returned tt s' (out ++ rest p)
    ∧ getPeer debug i s = returned (Some k) s' out
    ∧ peerConnections s' !! k = Some p
    ∧ id p = i
    ∧ notifications out = []
    ∧ sent out = []
    ∧ rtc_calls out
      = (if bool_decide (i ∈ ids s) then []
         else constructing (allocated s) (localStream s))
    ∧ (i ∈ ids s → s' = s)
    ∧ (i ∉ ids s →
       p = fresh_peer (allocated s) JS.undefined i
       ∧ s' = State (peerConnections s ++ [p]) (localStream s) (S (allocated s))).
Proof.
  unfold getPeer at 2.
  destruct (find_peer (peerConnections s) i 0 None) as [k|] eqn:Hfind.
  - apply find_peer_Some in Hfind as Hk.
    destruct Hk as [?|(_ & p & Hp & Hid)]; [done|]. rewrite Nat.sub_0_r in Hp.
    assert (i ∈ ids s) as Hin
      by (unfold ids; rewrite <-Hid;
          by eapply list_elem_of_fmap_2, list_elem_of_lookup_2).
    exists k, p, s, []. split.
    { unfold getPeer, deref. run. rewrite Hfind. simpl. by rewrite Hp. }
    split; [by run; rewrite Hfind|]. do 4 (split; [done|]).
    split; [by rewrite bool_decide_eq_true_2|]. by split.
  - apply find_peer_None in Hfind as Hout. destruct Hout as [_ Hout].
    set (p := fresh_peer (allocated s) JS.undefined i).
    set (s' := State (peerConnections s ++ [p]) (localStream s) (S (allocated s))).
    assert (∃ out, addPeer debug i JS.undefined s
                   = returned (Some (length (peerConnections s))) s' out
                   ∧ notifications out = [] ∧ sent out = []
                   ∧ rtc_calls out = constructing (allocated s) (localStream s))
      as (out & Hadd & Hn & Hs & Hc).
    { unfold addPeer. run.
      rewrite hasPeer_elem_of, bool_decide_eq_false_2 by done. simpl.
      subst s' p. destruct s as [peers [stream|] a]; simpl;
        eexists; (split; [reflexivity|]); by console_cases debug. }
    exists (length (peerConnections s)), p, s', out. split.
    { unfold getPeer, deref. run. rewrite Hfind, Hadd. simpl.
      rewrite list_lookup_middle by done. simpl. by rewrite ?app_nil_r. }
    split; [run; by rewrite Hfind, Hadd|].
    split; [by apply list_lookup_middle|]. do 3 (split; [done|]).
    split; [by rewrite bool_decide_eq_false_2|]. by split.
Qed.

(** [createAnswer] as [with_peer_returns] sees it. *)
Lemma createAnswer_unfold sender offer s :
  createAnswer debug sender offer s
  = (r ← getPeer debug sender; peer ← deref r;
     tell (console debug ("Creating answer for " +:+ id peer)
           ++ [rtc (serial (connection peer))
                   (setRemoteDescription offer remote_offer_set logError_callback)])) s.
Proof. reflexivity. Qed.

Lemma handleAnswer_unfold sender answer s :
  handleAnswer debug sender answer s
  = (r ← getPeer debug sender; peer ← deref r;
     tell (console debug ("Handling answer from: " +:+ id peer)
           ++ [rtc (serial (connection peer))
                   (setRemoteDescription answer remote_answer_set logError_callback)])) s.
Proof. reflexivity. Qed.

Lemma receiveIceCandidate_unfold sender e c s :
  Wire.event_candidate e = Some c → Wire.candidate c ≠ "" →
  receiveIceCandidate debug (Some (Build_ice_data sender (Some e))) s
  = (r ← getPeer debug sender; peer ← deref r;
     tell ((if JS.truthy debug && JS.is_verbose debug
            then [console_log ("Added ICE candidate from " +:+ id peer)] else [])
           ++ [rtc (serial (connection peer)) (addIceCandidate c)])) s.
Proof.
  intros He Hc. unfold receiveIceCandidate. simpl. rewrite He. simpl.
  apply String.eqb_neq in Hc. by rewrite Hc.
Qed.

Lemma regenStream_rtc s k p suppress :
  peerConnections s !! k = Some p →
  ∃ out,
    regenStream debug (Some k) suppress s
    = returned tt
        (State (<[k := regenerated suppress (allocated s) p]> (peerConnections s))
               (localStream s) (S (allocated s)))
        out
    ∧ notifications out = []
    ∧ sent out = []
    ∧ rtc_calls out = constructing (allocated s) (localStream s).
Proof.
  intros Hp. unfold regenStream, deref. run. rewrite Hp. simpl.
  rewrite list_insert_insert_eq.
  destruct s as [peers [stream|] a]; simpl; eexists; (split; [reflexivity|]);
    by console_cases debug.
Qed.

(** *** [receiveIceCandidate] *)

(** A candidate message with a level of its nesting missing, or with
    an empty candidate string, is dropped: no entry is created for
    the sender, nothing is asked of any connection, nothing is logged
    or sent. *)
Theorem unusable_candidate_is_dropped s (data : option ice_data) :
  (data ≫= data_candidate) ≫= Wire.event_candidate = None
  ∨ (∃ c, (data ≫= data_candidate) ≫= Wire.event_candidate = Some c
          ∧ Wire.candidate c = "") →
  receiveIceCandidate debug data s = returned tt s [].
Proof.
  unfold receiveIceCandidate. intros [Hnone|(c & Hc & Hempty)].
  - destruct data as [data|]; [|done]. simpl in Hnone. by rewrite Hnone.
  - destruct data as [data|]; [|done]. simpl in Hc. by rewrite Hc, Hempty.
Qed.

(** A candidate message with all three levels and a non-empty
    candidate string is handed, as the last thing done, to the
    connection of the sender's entry, which is created first when the
    sender is not in the table. *)
Theorem usable_candidate_is_added s sender e c :
  Wire.event_candidate e = Some c →
  Wire.candidate c ≠ "" →
  ∃ k p s' out,
    receiveIceCandidate debug (Some (Build_ice_data sender (Some e))) s
    = returned tt s' out
    ∧ peerConnections s' !! k = Some p
    ∧ id p = sender
    ∧ (sender ∈ ids s → s' = s)
    ∧ notifications out = []
    ∧ sent out = []
    ∧ rtc_calls out
      = (if bool_decide (sender ∈ ids s) then []
         else constructing (allocated s) (localStream s))
        ++ [(serial (connection p), addIceCandidate c)].
Proof.
  intros He Hc. rewrite (receiveIceCandidate_unfold _ _ _ _ He Hc).
  destruct (with_peer_returns s sender
              (λ peer, (if JS.truthy debug && JS.is_verbose debug
                        then [console_log ("Added ICE candidate from " +:+ id peer)]
                        else [])
                       ++ [rtc (serial (connection peer)) (addIceCandidate c)]))
    as (k & p & s' & out & Hrun & _ & Hk & Hid & Hn & Hs & Hcalls & Hin & _).
  exists k, p, s'. eexists. split; [exact Hrun|]. do 3 (split; [done|]).
  read_all. rewrite Hn, Hs, Hcalls.
  by destruct (JS.truthy debug && JS.is_verbose debug).
Qed.

(** *** [createAnswer] *)

(** An offer is applied to the connection of its sender's entry; when
    the sender is unknown the entry is created first, and with a local
    stream that creation has already asked the new connection for an
    offer of its own. Once the connection reports the offer applied it
    is asked for an answer, and the answer it produces is sent to the
    sender of the offer and then set as the local description. *)
Theorem offer_is_answered_to_its_sender s sender offer :
  ∃ k p s' out,
    createAnswer debug sender offer s = returned tt s' out
    ∧ peerConnections s' !! k = Some p
    ∧ id p = sender
    ∧ notifications out = []
    ∧ sent out = []
    ∧ rtc_calls out
      = (if bool_decide (sender ∈ ids s) then []
         else constructing (allocated s) (localStream s))
        ++ [(serial (connection p),
             setRemoteDescription offer remote_offer_set logError_callback)]
    ∧ (∀ d s'', invoke debug remote_offer_set p d s''
                = returned tt s''
                    [rtc (serial (connection p))
                         (createAnswer_call answer_created logError_callback)])
    ∧ (∀ a s'',
         state_of (invoke debug answer_created p a s'') = s''
         ∧ sent (effects_of (invoke debug answer_created p a s''))
           = [Wire.answer sender a]
         ∧ rtc_calls (effects_of (invoke debug answer_created p a s''))
           = [(serial (connection p), setLocalDescription a logError_callback)]).
Proof.
  rewrite createAnswer_unfold.
  destruct (with_peer_returns s sender
              (λ peer, console debug ("Creating answer for " +:+ id peer)
                       ++ [rtc (serial (connection peer))
                               (setRemoteDescription offer remote_offer_set
                                                     logError_callback)]))
    as (k & p & s' & out & Hrun & _ & Hk & Hid & Hn & Hs & Hcalls & _).
  exists k, p, s'. eexists. split; [exact Hrun|]. do 2 (split; [done|]).
  split; [read_all; rewrite Hn; by console_cases debug|].
  split; [read_all; rewrite Hs; by console_cases debug|].
  split; [read_all; rewrite Hcalls; by console_cases debug|].
  split; [done|]. intros a s''. rewrite <-Hid. unfold invoke. run.
  split; [done|]. split; read_all; by console_cases debug.
Qed.

(** *** [removeRemoteStream] *)

(** When a peer reports its stream removed, [remoteStreamRemoved] is
    published once, and the peer's entry (created first when there is
    none) gets a connection constructed for the occasion, with no
    remote stream and with handlers that publish the next stream it
    delivers; with a local stream the new connection is at once given
    the stream and asked for an offer. *)
Theorem removeRemoteStream_rebuilds_unsuppressed s i :
  ∃ k p s' out,
    removeRemoteStream debug i s = returned tt s' out
    ∧ peerConnections s' !! k = Some p
    ∧ id p = i
    ∧ connection p
      = PeerConnection (if bool_decide (i ∈ ids s) then allocated s
                        else S (allocated s))
                       [] (Some JS.undefined)
    ∧ localStream s' = localStream s
    ∧ notifications out = [remoteStreamRemoved i]
    ∧ sent out = []
    ∧ rtc_calls out
      = (if bool_decide (i ∈ ids s) then []
         else constructing (allocated s) (localStream s))
        ++ constructing (serial (connection p)) (localStream s)
    ∧ ∀ x s'', notifications (effects_of (fire debug p (addstream_event x) s''))
               = [remoteStreamAdded x i].
Proof.
  destruct (with_peer_returns s i (λ _, []))
    as (k & p & s1 & out1 & _ & Hget & Hk & Hid & Hn & Hs & Hcalls & Hin & Hout).
  destruct (regenStream_rtc s1 k p JS.undefined Hk)
    as (out2 & Hregen & Hn2 & Hs2 & Hcalls2).
  eexists k, _, _, _. split.
  { unfold removeRemoteStream. run. rewrite Hget. simpl. rewrite Hregen. reflexivity. }
  simpl. split; [apply list_lookup_insert_eq; by eapply lookup_lt_Some|].
  split; [done|].
  assert (allocated s1 = (if bool_decide (i ∈ ids s) then allocated s
                          else S (allocated s))
          ∧ localStream s1 = localStream s) as [Ha Hl].
  { destruct (decide (i ∈ ids s)) as [Hi|Hi].
    - rewrite bool_decide_eq_true_2 by done. by rewrite (Hin Hi).
    - rewrite bool_decide_eq_false_2 by done. by destruct (Hout Hi) as [_ ->]. }
  split; [unfold regenerated, fresh_peer; simpl; by rewrite Ha|].
  split; [done|].
  split; [read_all; rewrite Hn, Hn2; by console_cases debug|].
  split; [read_all; rewrite Hs, Hs2; by console_cases debug|].
  split; [read_all; rewrite Hcalls, Hcalls2, Hl; by console_cases debug|].
  intros x s''. rewrite fire_addstream_notifications. simpl. by rewrite Hid.
Qed.

(** *** No message makes the orchestrator throw *)





Lemma removeRemoteStream_returns s i :
  ∃ s' out, removeRemoteStream debug i s = returned tt s' out
            ∧ notifications out = [remoteStreamRemoved i].
Proof.
  destruct (with_peer_returns s i (λ _, []))
    as (k & p & s1 & out1 & _ & Hget & Hk & _ & Hn1 & _).
  destruct (regenStream_rtc s1 k p JS.undefined Hk) as (out2 & Hregen & Hn2 & _).
  eexists _, _. split.
  - unfold removeRemoteStream. run. rewrite Hget. simpl. rewrite Hregen. reflexivity.
  - read_all. rewrite Hn1, Hn2. by console_cases debug.
Qed.



(** *** Adding and removing the local stream *)

Lemma addStream_loop stream (peers : list peer) s :
  ∃ out,
    forEach (addStreamToPeer debug stream) peers s = returned tt s out
    ∧ notifications out = []
    ∧ sent out = []
    ∧ rtc_calls out = flat_map (λ p, offering (serial (connection p)) stream) peers.
Proof.
  induction peers as [|p peers (out & IH & Hn & Hs & Hc)]; simpl.
  - by exists [].
  - eexists. split.
    { eapply bind_returned; [|exact IH]. unfold addStreamToPeer. run. reflexivity. }
    read_all. rewrite Hn, Hs, Hc. by console_cases debug.
Qed.

(** When [getUserMedia] delivers the stream it becomes the local
    stream, every connection of the table is given it and asked for an
    offer, in table order, and [localStreamAdded] is published once;
    the table is as before and nothing is sent until a connection
    calls back with its offer, which then goes to that entry's id. *)
Theorem local_stream_is_offered_to_every_peer s stream :
  ∃ out,
    gotUserMedia debug stream s
    = returned tt (State (peerConnections s) (Some stream) (allocated s)) out
    ∧ notifications out = [localStreamAdded stream]
    ∧ sent out = []
    ∧ rtc_calls out
      = flat_map (λ p, offering (serial (connection p)) stream) (peerConnections s)
    ∧ ∀ p d s'', sent (effects_of (invoke debug offer_created p d s''))
                 = [Wire.offer (id p) d].
Proof.
  destruct (addStream_loop stream (peerConnections s)
              (State (peerConnections s) (Some stream) (allocated s)))
    as (out & Hloop & Hn & Hs & Hc).
  eexists. split.
  { unfold gotUserMedia. eapply bind_returned; [reflexivity|].
    eapply bind_returned.
    - unfold addStream. eapply bind_returned; [reflexivity|exact Hloop].
    - run. reflexivity. }
  split; [read_all; rewrite Hn; by console_cases debug|].
  split; [read_all; rewrite Hs; by console_cases debug|].
  split; [read_all; rewrite Hc; console_cases debug; by rewrite app_nil_r|].
  intros p d s''. unfold invoke. run. read_all. by console_cases debug.
Qed.

Lemma removal_loop_rtc rest : ∀ done a,
  ∃ out,
    forEach_indexed (remove_from debug) rest (length done) (State (done ++ rest) None a)
    = returned tt
        (State (done ++ imap (λ j, regenerated (JS.boolean true) (a + j)) rest)
               None (a + length rest))
        out
    ∧ notifications out = []
    ∧ sent out = (λ p, Wire.streamremoved (id p)) <$> rest
    ∧ rtc_calls out = imap (λ j _, (a + j, construct)) rest.
Proof.
  induction rest as [|p rest IH]; intros done a; simpl.
  - exists []. by rewrite Nat.add_0_r.
  - set (p' := regenerated (JS.boolean true) a p).
    assert ((done ++ p :: rest) !! length done = Some p) as Hp
      by apply list_lookup_middle, eq_refl.
    assert (∃ out1,
              remove_from debug p (length done) (State (done ++ p :: rest) None a)
              = returned tt (State ((done ++ [p']) ++ rest) None (S a)) out1
              ∧ notifications out1 = []
              ∧ sent out1 = [Wire.streamremoved (id p)]
              ∧ rtc_calls out1 = [(a, construct)])
      as (out1 & Hbody & Hn1 & Hs1 & Hc1).
    { destruct (regenStream_rtc (State (done ++ p :: rest) None a) (length done) p
                  (JS.boolean true) Hp) as (out & Hregen & Hn & Hs & Hc).
      simpl in Hregen.
      replace (<[length done := p']> (done ++ p :: rest))
        with ((done ++ [p']) ++ rest) in Hregen
        by (rewrite <-app_assoc; simpl;
            by rewrite <-(Nat.add_0_r (length done)), insert_app_r).
      eexists. split; [|split; [|split]].
      - unfold remove_from, deref. run. rewrite Hp. simpl.
        by rewrite Hregen.
      - read_all. rewrite Hn. by console_cases debug.
      - read_all. rewrite Hs. by console_cases debug.
      - read_all. rewrite Hc. by console_cases debug. }
    destruct (IH (done ++ [p']) (S a)) as (out2 & Hloop & Hn2 & Hs2 & Hc2).
    rewrite length_app, Nat.add_1_r in Hloop.
    exists (out1 ++ out2). split; [|split; [|split]].
    + rewrite (bind_returned _ _ _ _ _ _ _ _ _ Hbody Hloop).
      f_equal. f_equal; [|lia].
      rewrite <-app_assoc. simpl. f_equal. f_equal.
      * unfold p'. by rewrite Nat.add_0_r.
      * apply imap_ext. intros j q _. simpl. f_equal. lia.
    + by rewrite notifications_app, Hn1, Hn2.
    + by rewrite sent_app, Hs1, Hs2.
    + rewrite rtc_calls_app, Hc1, Hc2. simpl. rewrite Nat.add_0_r. f_equal.
      apply imap_ext. intros j q _. simpl. f_equal. lia.
Qed.

(** Without a local stream [removeLocalStream] throws before doing
    anything. With one, it stops the stream first, forgets it, tells
    every peer of the table [streamremoved] in table order, puts a
    newly constructed connection in place of each entry's connection
    and publishes [localStreamRemoved] once; the only thing asked of
    any connection is its construction: the replaced ones are not
    closed and no offer is requested. *)
Theorem removeLocalStream_outcome s :
  match localStream s with
  | None => removeLocalStream debug s = thrown s []
  | Some stream =>
      ∃ out,
        removeLocalStream debug s
        = returned tt
            (State (imap (λ j, regenerated (JS.boolean true) (allocated s + j))
                         (peerConnections s))
                   None (allocated s + length (peerConnections s)))
            out
        ∧ head out = Some (stop stream)
        ∧ notifications out = [localStreamRemoved]
        ∧ sent out = (λ p, Wire.streamremoved (id p)) <$> peerConnections s
        ∧ rtc_calls out = imap (λ j _, (allocated s + j, construct)) (peerConnections s)
  end.
Proof.
  destruct s as [peers [stream|] a]; simpl; [|done].
  destruct (removal_loop_rtc peers [] a) as (out & Hloop & Hn & Hs & Hc).
  simpl in Hloop. unfold removeLocalStream. run. rewrite Hloop.
  eexists. split; [reflexivity|]. split; [done|].
  read_all. by rewrite Hn, Hs, Hc, !app_nil_r.
Qed.

(** *** [regenStream] and the connection it replaces *)


(** *** Every entry owns its connection *)

Lemma NoDup_insert_fresh (l : list nat) k x :
  NoDup l → x ∉ l → NoDup (<[k := x]> l).
Proof.
  revert k. induction l as [|y l IH]; intros k Hl Hx; [done|].
  apply NoDup_cons in Hl as [Hy Hl]. apply not_elem_of_cons in Hx as [Hxy Hx].
  destruct k as [|k]; simpl; apply NoDup_cons.
  - by split.
  - split; [|by apply IH].
    intros [j Hj]%list_elem_of_lookup.
    apply list_lookup_insert_Some in Hj as [(_ & ? & _)|[_ Hj]]; [done|].
    by apply Hy, (list_elem_of_lookup_2 _ j).
Qed.

Lemma fresh_serial s : well_allocated s → allocated s ∉ serials s.
Proof.
  intros Hwf (p & Hp & Hin)%list_elem_of_fmap. apply Hwf in Hin. lia.
Qed.

Lemma addPeer_keeps_exclusive i suppress :
  relates keeps_exclusive (addPeer debug i suppress).
Proof.
  intros s [Hwf Hnodup]. split; [by apply addPeer_keeps_allocated|].
  destruct (decide (i ∈ ids s)) as [Hi|Hi].
  - by rewrite addPeer_present.
  - destruct (addPeer_absent debug s i suppress Hi) as (out & -> & _).
    unfold serials in *. simpl. rewrite fmap_app. apply NoDup_app.
    split; [done|]. split; [|apply NoDup_singleton].
    intros x Hx ->%list_elem_of_singleton. by apply (fresh_serial s).
Qed.

Lemma regenStream_keeps_exclusive r suppress :
  relates keeps_exclusive (regenStream debug r suppress).
Proof.
  intros s [Hwf Hnodup]. split; [by apply regenStream_keeps_allocated|].
  destruct r as [k|]; [|done].
  destruct (peerConnections s !! k) as [p|] eqn:Hp.
  - destruct (regenStream_spec debug s k p suppress Hp) as (out & -> & _).
    unfold serials. simpl. rewrite list_fmap_insert. simpl.
    apply NoDup_insert_fresh; [done|by apply fresh_serial].
  - unfold regenStream, deref. run. by rewrite Hp.
Qed.

Lemma remote_streams_keeps_exclusive r streams :
  relates keeps_exclusive (remote_streams_changed r streams).
Proof.
  intros s [Hwf Hnodup]. split; [by apply remote_streams_keeps_allocated|].
  unfold remote_streams_changed, deref. run.
  destruct r as [k|]; [|done]. simpl.
  destruct (peerConnections s !! k) as [p|] eqn:Hp; [|done]. simpl.
  unfold serials in *. simpl. rewrite list_fmap_insert. simpl.
  rewrite list_insert_id; [done|]. by rewrite list_lookup_fmap, Hp.
Qed.

#[local] Instance keeps_exclusive_refl : Reflexive keeps_exclusive.
Proof. intros s H. exact H. Qed.
#[local] Instance keeps_exclusive_trans : Transitive keeps_exclusive.
Proof. unfold keeps_exclusive. intros s1 s2 s3 H1 H2 H. auto. Qed.

(** In a new orchestrator, and after every operation on a table where
    it was so before, the connections of the table are pairwise
    distinct objects, each constructed by this orchestrator: no two
    entries ever share a connection. *)
Theorem connections_are_never_shared (o : operation) s :
  exclusive s →
  exclusive initial ∧ exclusive (state_of (perform debug o s)).
Proof.
  intros Hs. split; [split; [by intros p ?%elem_of_nil|apply NoDup_nil_2]|].
  revert s Hs. change (relates keeps_exclusive (perform debug o)).
  apply R_perform; try apply _.
  - apply addPeer_keeps_exclusive.
  - apply regenStream_keeps_exclusive.
  - intros matches s [Hwf Hnodup]. split.
    + intros q Hq. simpl in *. apply Hwf.
      eapply elem_of_sublist; [exact Hq|apply forEach_splice_sublist].
    + unfold serials in *. simpl.
      apply (sublist_NoDup _ _ Hnodup), fmap_sublist, forEach_splice_sublist.
  - by intros s stream Hs.
  - apply remote_streams_keeps_exclusive.
Qed.

(** *** A list of peers that are all new *)

Lemma addPeer_rtc s i suppress :
  i ∉ ids s →
  ∃ out,
    addPeer debug i suppress s
    = returned (Some (length (peerConnections s)))
        (State (peerConnections s ++ [fresh_peer (allocated s) suppress i])
               (localStream s) (S (allocated s)))
        out
    ∧ notifications out = []
    ∧ sent out = []
    ∧ rtc_calls out = constructing (allocated s) (localStream s).
Proof.
  intros Hi. unfold addPeer. run.
  rewrite hasPeer_elem_of, bool_decide_eq_false_2 by done. simpl.
  destruct s as [peers [stream|] a]; simpl; eexists; (split; [reflexivity|]);
    by console_cases debug.
Qed.

Lemma ids_imap_fresh (peers : list string) : ∀ a k,
  id <$> imap (λ j, fresh_peer (a + j) (JS.number (k + j))) peers = peers.
Proof.
  induction peers as [|i rest IH]; intros a k; [done|].
  simpl. f_equal. rewrite <-(IH (S a) (S k)) at 2. f_equal.
  apply imap_ext. intros j q _. simpl. f_equal; [lia|f_equal; lia].
Qed.

Lemma generate_fresh_loop (peers : list string) : ∀ s k0,
  NoDup peers →
  (∀ i, i ∈ peers → i ∉ ids s) →
  ∃ out,
    forEach_indexed (λ i index, addPeer debug i (JS.number index);; mret tt) peers k0 s
    = returned tt
        (State (peerConnections s
                ++ imap (λ j, fresh_peer (allocated s + j) (JS.number (k0 + j))) peers)
               (localStream s) (allocated s + length peers))
        out
    ∧ notifications out = []
    ∧ sent out = []
    ∧ rtc_calls out
      = mjoin (imap (λ j _, constructing (allocated s + j) (localStream s)) peers).
Proof.
  induction peers as [|i0 rest IH]; intros s k0 Hnodup Hfresh;
    cbn [forEach_indexed].
  - exists []. split; [|done]. simpl. rewrite app_nil_r, Nat.add_0_r.
    by destruct s.
  - apply NoDup_cons in Hnodup as [Hi0 Hnodup].
    destruct (addPeer_rtc s i0 (JS.number k0)) as (out1 & Hadd & Hn1 & Hs1 & Hc1);
      [apply Hfresh; left|].
    set (p0 := fresh_peer (allocated s) (JS.number k0) i0) in *.
    set (s1 := State (peerConnections s ++ [p0]) (localStream s) (S (allocated s))) in *.
    destruct (IH s1 (S k0) Hnodup) as (out2 & Hloop & Hn2 & Hs2 & Hc2).
    { intros i Hi. unfold ids. simpl. rewrite fmap_app, elem_of_app.
      simpl. rewrite list_elem_of_singleton.
      intros [?| ->]; [|done]. apply (Hfresh i); [by right|done]. }
    exists (out1 ++ out2). split; [|split; [|split]].
    + apply (bind_returned _ _ s tt s1 out1 tt _ out2).
      * unfold mbind, M_bind. rewrite Hadd. simpl. by rewrite app_nil_r.
      * rewrite Hloop. simpl. f_equal. f_equal; [|lia].
        rewrite <-app_assoc. simpl. f_equal. f_equal.
        -- unfold p0. by rewrite !Nat.add_0_r.
        -- apply imap_ext. intros j q _. simpl. f_equal; [lia|f_equal; lia].
    + by rewrite notifications_app, Hn1, Hn2.
    + by rewrite sent_app, Hs1, Hs2.
    + rewrite rtc_calls_app, Hc1, Hc2. simpl. rewrite Nat.add_0_r. f_equal.
      erewrite imap_ext; [reflexivity|]. intros j q _. simpl. f_equal. lia.
Qed.

(** A received list without repetitions whose ids are all new to the
    table appends one entry per id, in list order, the j-th with the
    j-th connection constructed from here on and with its handlers
    bound with [j] as [suppress]; with a local stream each new
    connection is given the stream and asked for an offer as soon as
    it is constructed. Nothing is published or sent. *)
Theorem new_peers_are_appended_in_list_order s (peers : list string) :
  NoDup peers →
  (∀ i, i ∈ peers → i ∉ ids s) →
  ∃ s' out,
    generateConnections debug peers s = returned tt s' out
    ∧ peerConnections s'
      = peerConnections s
        ++ imap (λ j, fresh_peer (allocated s + j) (JS.number j)) peers
    ∧ ids s' = ids s ++ peers
    ∧ localStream s' = localStream s
    ∧ notifications out = []
    ∧ sent out = []
    ∧ rtc_calls out
      = mjoin (imap (λ j _, constructing (allocated s + j) (localStream s)) peers).
Proof.
  intros Hnodup Hfresh.
  destruct (generate_fresh_loop peers s 0 Hnodup Hfresh)
    as (out & Hloop & Hn & Hs & Hc).
  eexists _, _. split.
  { unfold generateConnections. eapply bind_returned; [reflexivity|exact Hloop]. }
  simpl. split; [done|]. split.
  { unfold ids. simpl. rewrite fmap_app. f_equal. apply (ids_imap_fresh peers _ 0). }
  split; [done|].
  split; [read_all; rewrite Hn; by console_cases debug|].
  split; [read_all; rewrite Hs; by console_cases debug|].
  read_all. rewrite Hc. by console_cases debug.
Qed.

End Orchestrator.

Lemma unusable_candidate_is_dropped_witness :
  receiveIceCandidate (JS.boolean true)
    (Some (Build_ice_data "a" (Some (Wire.Build_ice_event None)))) initial
  = returned tt initial [].
Proof.
  apply (unusable_candidate_is_dropped (JS.boolean true) initial
           (Some (Build_ice_data "a" (Some (Wire.Build_ice_event None))))).
  left. reflexivity.
Defined.

Lemma usable_candidate_is_added_witness :
  ∃ k p s' out,
    receiveIceCandidate (JS.boolean true)
      (Some (Build_ice_data "a"
               (Some (Wire.Build_ice_event
                        (Some (Wire.Build_RTCIceCandidate "candidate:1 1 UDP" 0))))))
      initial
    = returned tt s' out
    ∧ peerConnections s' !! k = Some p
    ∧ id p = "a"
    ∧ ("a" ∈ ids initial → s' = initial)
    ∧ notifications out = []
    ∧ sent out = []
    ∧ rtc_calls out
      = (if bool_decide ("a" ∈ ids initial) then []
         else constructing (allocated initial) (localStream initial))
        ++ [(serial (connection p),
             addIceCandidate (Wire.Build_RTCIceCandidate "candidate:1 1 UDP" 0))].
Proof.
  apply (usable_candidate_is_added (JS.boolean true) initial "a"
           (Wire.Build_ice_event
              (Some (Wire.Build_RTCIceCandidate "candidate:1 1 UDP" 0)))
           (Wire.Build_RTCIceCandidate "candidate:1 1 UDP" 0)).
  - reflexivity.
  - discriminate.
Defined.


Lemma connections_are_never_shared_witness :
  exclusive initial
  ∧ exclusive (state_of (perform (JS.boolean true)
                           (op_receive (Wire.list_reply ["a"; "b"])) initial)).
Proof.
  apply (connections_are_never_shared (JS.boolean true)
           (op_receive (Wire.list_reply ["a"; "b"])) initial).
  split.
  - intros p Hp. by apply elem_of_nil in Hp.
  - apply NoDup_nil_2.
Defined.

Lemma new_peers_are_appended_in_list_order_witness :
  ∃ s' out,
    generateConnections (JS.boolean true) ["a"; "b"] (State [] (Some 1) 0)
    = returned tt s' out
    ∧ peerConnections s'
      = [] ++ imap (λ j, fresh_peer (0 + j) (JS.number j)) ["a"; "b"]
    ∧ ids s' = [] ++ ["a"; "b"]
    ∧ localStream s' = Some 1
    ∧ notifications out = []
    ∧ sent out = []
    ∧ rtc_calls out
      = mjoin (imap (λ j (_ : string), constructing (0 + j) (Some 1)) ["a"; "b"]).
Proof.
  apply (new_peers_are_appended_in_list_order (JS.boolean true)
           (State [] (Some 1) 0) ["a"; "b"]).
  - apply NoDup_cons. split; [|apply NoDup_singleton].
    intros [=]%list_elem_of_singleton.
  - intros i _. apply not_elem_of_nil.
Defined.

End ClientMore.

(** ** The two programs together *)

Module ProtocolFacts.
Import Protocol.

Section Receiving.
Variable debug : JS.value.

Lemma receives_offer s sender offer :
  ∃ k q s' out,
    Client.on_message debug (Wire.offer_from sender offer) s
    = Client.returned tt s' out
    ∧ Client.peerConnections s' !! k = Some q
    ∧ Client.id q = sender
    ∧ last out
      = Some (Client.rtc (Client.serial (Client.connection q))
                (Client.setRemoteDescription offer Client.remote_offer_set
                                             Client.logError_callback)).
Proof.
  cbn [Client.on_message]. rewrite ClientMore.createAnswer_unfold.
  destruct (ClientMore.with_peer_returns debug s sender
              (λ peer, Client.console debug ("Creating answer for " +:+ Client.id peer)
                       ++ [Client.rtc (Client.serial (Client.connection peer))
                             (Client.setRemoteDescription offer Client.remote_offer_set
                                                          Client.logError_callback)]))
    as (k & q & s' & out & Hrun & _ & Hk & Hid & _).
  exists k, q, s'. eexists. split; [exact Hrun|]. do 2 (split; [done|]).
  by rewrite !app_assoc, last_snoc.
Qed.

Lemma receives_answer s sender answer :
  ∃ k q s' out,
    Client.on_message debug (Wire.answer_from sender answer) s
    = Client.returned tt s' out
    ∧ Client.peerConnections s' !! k = Some q
    ∧ Client.id q = sender
    ∧ last out
      = Some (Client.rtc (Client.serial (Client.connection q))
                (Client.setRemoteDescription answer Client.remote_answer_set
                                             Client.logError_callback)).
Proof.
  cbn [Client.on_message]. rewrite ClientMore.handleAnswer_unfold.
  destruct (ClientMore.with_peer_returns debug s sender
              (λ peer, Client.console debug ("Handling answer from: " +:+ Client.id peer)
                       ++ [Client.rtc (Client.serial (Client.connection peer))
                             (Client.setRemoteDescription answer Client.remote_answer_set
                                                          Client.logError_callback)]))
    as (k & q & s' & out & Hrun & _ & Hk & Hid & _).
  exists k, q, s'. eexists. split; [exact Hrun|]. do 2 (split; [done|]).
  by rewrite !app_assoc, last_snoc.
Qed.

Lemma receives_candidate s sender e c :
  Wire.event_candidate e = Some c → Wire.candidate c ≠ "" →
  ∃ k q s' out,
    Client.on_message debug (Wire.icecandidate_from sender (Some e)) s
    = Client.returned tt s' out
    ∧ Client.peerConnections s' !! k = Some q
    ∧ Client.id q = sender
    ∧ last out
      = Some (Client.rtc (Client.serial (Client.connection q))
                (Client.addIceCandidate c)).
Proof.
  intros He Hc. cbn [Client.on_message].
  rewrite (ClientMore.receiveIceCandidate_unfold debug sender e c) by done.
  destruct (ClientMore.with_peer_returns debug s sender
              (λ peer, (if JS.truthy debug && JS.is_verbose debug
                        then [Client.console_log
                                ("Added ICE candidate from " +:+ Client.id peer)]
                        else [])
                       ++ [Client.rtc (Client.serial (Client.connection peer))
                             (Client.addIceCandidate c)]))
    as (k & q & s' & out & Hrun & _ & Hk & Hid & _).
  exists k, q, s'. eexists. split; [exact Hrun|]. do 2 (split; [done|]).
  by rewrite !app_assoc, last_snoc.
Qed.

Lemma sent_of_offer_created p d s :
  Client.sent (Client.effects_of (Client.invoke debug Client.offer_created p d s))
  = [Wire.offer (Client.id p) d].
Proof.
  unfold Client.invoke, Client.sendOffer, Client.log, Client.console, Client.tell.
  simpl. destruct (JS.truthy debug); reflexivity.
Qed.

Lemma sent_of_answer_created p d s :
  Client.sent (Client.effects_of (Client.invoke debug Client.answer_created p d s))
  = [Wire.answer (Client.id p) d].
Proof.
  unfold Client.invoke, Client.sendAnswer, Client.log, Client.console, Client.tell.
  simpl. destruct (JS.truthy debug); reflexivity.
Qed.

Lemma effects_of_remote_answer_set p d s :
  Client.notifications
    (Client.effects_of (Client.invoke debug Client.remote_answer_set p d s))
  = [Client.peerconnected (Client.id p)]
  ∧ Client.sent
      (Client.effects_of (Client.invoke debug Client.remote_answer_set p d s))
    = [Wire.peerconnected (Client.id p)].
Proof.
  unfold Client.invoke, Client.peerConnected, Client.log, Client.console, Client.tell.
  simpl. destruct (JS.truthy debug); split; reflexivity.
Qed.

Lemma peerConnected_outcome i s :
  ∃ out, Client.on_message debug (Wire.peerconnected_from i) s
         = Client.returned tt s out
         ∧ Client.notifications out = [Client.peerconnected i]
         ∧ Client.sent out = [].
Proof.
  cbn [Client.on_message].
  unfold Client.peerConnected, Client.log, Client.console, Client.tell.
  eexists. split; [reflexivity|]. destruct (JS.truthy debug); split; reflexivity.
Qed.
End Receiving.

Section Exchange.
(** [options.debug] of the relay and of the clients behind the sockets
    [A] and [B]. *)
Variables dR dA dB : JS.value.
Variables (sg : Relay.signaller) (A B : Relay.socket).

(** A candidate that the connection for [B] raises at [A] is sent to
    the relay addressed to [B]; the relay, where [B]'s id resolves to
    [B], delivers it to [B] alone under [A]'s id; and [B], whatever
    its table, ends by adding that candidate to the connection of its
    entry for [A]. *)
Theorem candidate_reaches_the_peer_connection
    (p : Client.peer) (suppress : JS.value) (e : Wire.ice_event)
    (c : Wire.RTCIceCandidate) (sA sB : Client.SignallerPeerConnection) :
  Relay.findSocket (Relay.clients sg) (Relay.id B) = Some B →
  Client.handlers (Client.connection p) = Some suppress →
  Client.id p = Relay.id B →
  Wire.event_candidate e = Some c →
  Wire.candidate c ≠ "" →
  ∃ m m',
    Client.sent (Client.effects_of (Client.fire dA p (Client.icecandidate_event e) sA))
    = [m]
    ∧ deliveries (Relay.step dR sg (Relay.message A m)).2 = [Relay.emit B m']
    ∧ ∃ k q sB' out,
        Client.on_message dB m' sB = Client.returned tt sB' out
        ∧ Client.peerConnections sB' !! k = Some q
        ∧ Client.id q = Relay.id A
        ∧ last out = Some (Client.rtc (Client.serial (Client.connection q))
                                      (Client.addIceCandidate c)).
Proof.
  intros HB Hh Hp He Hc.
  exists (Wire.icecandidate (Relay.id B) (Some e)),
         (Wire.icecandidate_from (Relay.id A) (Some e)).
  split.
  { unfold Client.fire. rewrite Hh, Hp.
    unfold Client.log_verbose, Client.tell. simpl.
    by destruct (JS.truthy dA && JS.is_verbose dA). }
  split.
  { destruct (RelayMore.forwarded_deliveries dR sg A
                (Wire.icecandidate (Relay.id B) (Some e)) (Relay.id B) B eq_refl HB)
      as (m' & [= <-] & Hd). exact Hd. }
  by apply receives_candidate.
Qed.

(** The offer that [A]'s connection for [B] produces is sent
    addressed to [B] and delivered by the relay to [B] alone under
    [A]'s id; [B] ends by applying it to the connection of its entry
    for [A]; the answer that connection produces is sent addressed to
    [A], delivered to [A] alone under [B]'s id, and [A] ends by
    applying it to the connection of its entry for [B]. *)
Theorem offer_and_answer_reach_the_peer_connections
    (p : Client.peer) (offer answer : Wire.sdp)
    (sA sA0 sB sB0 : Client.SignallerPeerConnection) :
  Relay.findSocket (Relay.clients sg) (Relay.id A) = Some A →
  Relay.findSocket (Relay.clients sg) (Relay.id B) = Some B →
  Client.id p = Relay.id B →
  ∃ m1 m1' k q sB' out,
    Client.sent (Client.effects_of (Client.invoke dA Client.offer_created p offer sA0))
    = [m1]
    ∧ deliveries (Relay.step dR sg (Relay.message A m1)).2 = [Relay.emit B m1']
    ∧ Client.on_message dB m1' sB = Client.returned tt sB' out
    ∧ Client.peerConnections sB' !! k = Some q
    ∧ Client.id q = Relay.id A
    ∧ last out
      = Some (Client.rtc (Client.serial (Client.connection q))
                (Client.setRemoteDescription offer Client.remote_offer_set
                                             Client.logError_callback))
    ∧ ∃ m2 m2' k' q' sA' out',
        Client.sent
          (Client.effects_of (Client.invoke dB Client.answer_created q answer sB0))
        = [m2]
        ∧ deliveries (Relay.step dR sg (Relay.message B m2)).2 = [Relay.emit A m2']
        ∧ Client.on_message dA m2' sA = Client.returned tt sA' out'
        ∧ Client.peerConnections sA' !! k' = Some q'
        ∧ Client.id q' = Relay.id B
        ∧ last out'
          = Some (Client.rtc (Client.serial (Client.connection q'))
                    (Client.setRemoteDescription answer Client.remote_answer_set
                                                 Client.logError_callback)).
Proof.
  intros HA HB Hp.
  destruct (receives_offer dB sB (Relay.id A) offer)
    as (k & q & sB' & out & Hrun & Hk & Hq & Hlast).
  destruct (receives_answer dA sA (Relay.id B) answer)
    as (k' & q' & sA' & out' & Hrun' & Hk' & Hq' & Hlast').
  exists (Wire.offer (Relay.id B) offer), (Wire.offer_from (Relay.id A) offer),
         k, q, sB', out.
  split; [by rewrite sent_of_offer_created, Hp|].
  split.
  { destruct (RelayMore.forwarded_deliveries dR sg A
                (Wire.offer (Relay.id B) offer) (Relay.id B) B eq_refl HB)
      as (m' & [= <-] & Hd). exact Hd. }
  do 4 (split; [done|]).
  exists (Wire.answer (Relay.id A) answer), (Wire.answer_from (Relay.id B) answer),
         k', q', sA', out'.
  split; [by rewrite sent_of_answer_created, Hq|].
  split; [|done].
  destruct (RelayMore.forwarded_deliveries dR sg B
              (Wire.answer (Relay.id A) answer) (Relay.id A) A eq_refl HA)
    as (m' & [= <-] & Hd). exact Hd.
Qed.

(** When [A]'s connection for [B] reports the answer applied, [A]
    publishes [peerconnected] for [B] and tells the relay, which
    delivers it to [B] alone under [A]'s id; [B] publishes
    [peerconnected] for [A] and neither writes its table nor sends
    anything back. *)
Theorem peerconnected_is_published_on_both_sides
    (p : Client.peer) (d : Wire.sdp) (sA sB : Client.SignallerPeerConnection) :
  Relay.findSocket (Relay.clients sg) (Relay.id B) = Some B →
  Client.id p = Relay.id B →
  ∃ m m' out,
    Client.notifications
      (Client.effects_of (Client.invoke dA Client.remote_answer_set p d sA))
    = [Client.peerconnected (Relay.id B)]
    ∧ Client.sent
        (Client.effects_of (Client.invoke dA Client.remote_answer_set p d sA))
      = [m]
    ∧ deliveries (Relay.step dR sg (Relay.message A m)).2 = [Relay.emit B m']
    ∧ Client.on_message dB m' sB = Client.returned tt sB out
    ∧ Client.notifications out = [Client.peerconnected (Relay.id A)]
    ∧ Client.sent out = [].
Proof.
  intros HB Hp.
  destruct (effects_of_remote_answer_set dA p d sA) as [Hn Hs].
  destruct (peerConnected_outcome dB (Relay.id A) sB) as (out & Hrun & Hn' & Hs').
  exists (Wire.peerconnected (Relay.id B)), (Wire.peerconnected_from (Relay.id A)), out.
  split; [by rewrite Hn, Hp|]. split; [by rewrite Hs, Hp|].
  split; [|done].
  destruct (RelayMore.forwarded_deliveries dR sg A
              (Wire.peerconnected (Relay.id B)) (Relay.id B) B eq_refl HB)
    as (m' & [= <-] & Hd). exact Hd.
Qed.

(** When [A], which has an entry for [B], removes its local stream,
    [streamremoved] addressed to [B] is among what it sends; the relay
    delivers it to [B] alone under [A]'s id; and [B], whatever its
    table, publishes [remoteStreamRemoved] for [A] once. *)
Theorem stream_removal_is_published_at_the_peer
    (p : Client.peer) (k : nat) (stream : Client.MediaStream)
    (sA sB : Client.SignallerPeerConnection) :
  Relay.findSocket (Relay.clients sg) (Relay.id B) = Some B →
  Client.localStream sA = Some stream →
  Client.peerConnections sA !! k = Some p →
  Client.id p = Relay.id B →
  ∃ sA' out m' sB' out',
    Client.removeLocalStream dA sA = Client.returned tt sA' out
    ∧ Wire.streamremoved (Relay.id B) ∈ Client.sent out
    ∧ deliveries (Relay.step dR sg (Relay.message A (Wire.streamremoved (Relay.id B)))).2
      = [Relay.emit B m']
    ∧ Client.on_message dB m' sB = Client.returned tt sB' out'
    ∧ Client.notifications out' = [Client.remoteStreamRemoved (Relay.id A)].
Proof.
  intros HB Hls Hk Hp.
  destruct (ClientFacts.removeLocalStream_spec dA sA stream Hls)
    as (out & Hrun & _ & Hsent).
  destruct (ClientMore.removeRemoteStream_returns dB sB (Relay.id A))
    as (sB' & out' & Hrun' & Hn').
  eexists _, out, (Wire.streamremoved_from (Relay.id A)), sB', out'.
  split; [exact Hrun|]. split.
  { rewrite Hsent, <-Hp.
    apply (list_elem_of_fmap_2 (λ p, Wire.streamremoved (Client.id p))).
    by eapply list_elem_of_lookup_2. }
  split; [|done].
  destruct (RelayMore.forwarded_deliveries dR sg A
              (Wire.streamremoved (Relay.id B)) (Relay.id B) B eq_refl HB)
    as (m' & [= <-] & Hd). exact Hd.
Qed.

End Exchange.

Lemma candidate_reaches_the_peer_connection_witness :
  let sg := Relay.Signaller "default" [Relay.Socket "a"; Relay.Socket "b"] in
  let c := Wire.Build_RTCIceCandidate "candidate:1 1 UDP" 0 in
  let e := Wire.Build_ice_event (Some c) in
  ∃ m m',
    Client.sent (Client.effects_of
                   (Client.fire (JS.boolean true) (Client.fresh_peer 0 JS.undefined "b")
                                (Client.icecandidate_event e) Client.initial))
    = [m]
    ∧ deliveries (Relay.step (JS.boolean true) sg
                             (Relay.message (Relay.Socket "a") m)).2
      = [Relay.emit (Relay.Socket "b") m']
    ∧ ∃ k q sB' out,
        Client.on_message (JS.boolean true) m' Client.initial
        = Client.returned tt sB' out
        ∧ Client.peerConnections sB' !! k = Some q
        ∧ Client.id q = Relay.id (Relay.Socket "a")
        ∧ last out = Some (Client.rtc (Client.serial (Client.connection q))
                                      (Client.addIceCandidate c)).
Proof.
  apply (candidate_reaches_the_peer_connection (JS.boolean true) (JS.boolean true)
           (JS.boolean true)
           (Relay.Signaller "default" [Relay.Socket "a"; Relay.Socket "b"])
           (Relay.Socket "a") (Relay.Socket "b")
           (Client.fresh_peer 0 JS.undefined "b") JS.undefined
           (Wire.Build_ice_event (Some (Wire.Build_RTCIceCandidate "candidate:1 1 UDP" 0)))
           (Wire.Build_RTCIceCandidate "candidate:1 1 UDP" 0)
           Client.initial Client.initial);
    try reflexivity. discriminate.
Defined.

Lemma offer_and_answer_reach_the_peer_connections_witness :
  let sg := Relay.Signaller "default" [Relay.Socket "a"; Relay.Socket "b"] in
  let sA := Client.State [Client.fresh_peer 0 JS.undefined "b"] (Some 1) 1 in
  ∃ m1 m1' k q sB' out,
    Client.sent (Client.effects_of
                   (Client.invoke (JS.boolean true) Client.offer_created
                                  (Client.fresh_peer 0 JS.undefined "b") "v=0" sA))
    = [m1]
    ∧ deliveries (Relay.step (JS.boolean true) sg
                             (Relay.message (Relay.Socket "a") m1)).2
      = [Relay.emit (Relay.Socket "b") m1']
    ∧ Client.on_message (JS.boolean true) m1' Client.initial
      = Client.returned tt sB' out
    ∧ Client.peerConnections sB' !! k = Some q
    ∧ Client.id q = Relay.id (Relay.Socket "a")
    ∧ last out
      = Some (Client.rtc (Client.serial (Client.connection q))
                (Client.setRemoteDescription "v=0" Client.remote_offer_set
                                             Client.logError_callback))
    ∧ ∃ m2 m2' k' q' sA' out',
        Client.sent
          (Client.effects_of
             (Client.invoke (JS.boolean true) Client.answer_created q "v=1"
                            Client.initial))
        = [m2]
        ∧ deliveries (Relay.step (JS.boolean true) sg
                                 (Relay.message (Relay.Socket "b") m2)).2
          = [Relay.emit (Relay.Socket "a") m2']
        ∧ Client.on_message (JS.boolean true) m2' sA = Client.returned tt sA' out'
        ∧ Client.peerConnections sA' !! k' = Some q'
        ∧ Client.id q' = Relay.id (Relay.Socket "b")
        ∧ last out'
          = Some (Client.rtc (Client.serial (Client.connection q'))
                    (Client.setRemoteDescription "v=1" Client.remote_answer_set
                                                 Client.logError_callback)).
Proof.
  apply (offer_and_answer_reach_the_peer_connections (JS.boolean true) (JS.boolean true)
           (JS.boolean true)
           (Relay.Signaller "default" [Relay.Socket "a"; Relay.Socket "b"])
           (Relay.Socket "a") (Relay.Socket "b")
           (Client.fresh_peer 0 JS.undefined "b") "v=0" "v=1"
           (Client.State [Client.fresh_peer 0 JS.undefined "b"] (Some 1) 1)
           (Client.State [Client.fresh_peer 0 JS.undefined "b"] (Some 1) 1)
           Client.initial Client.initial);
    reflexivity.
Defined.

Lemma peerconnected_is_published_on_both_sides_witness :
  let sg := Relay.Signaller "default" [Relay.Socket "a"; Relay.Socket "b"] in
  ∃ m m' out,
    Client.notifications
      (Client.effects_of
         (Client.invoke (JS.boolean true) Client.remote_answer_set
                        (Client.fresh_peer 0 JS.undefined "b") "v=1" Client.initial))
    = [Client.peerconnected (Relay.id (Relay.Socket "b"))]
    ∧ Client.sent
        (Client.effects_of
           (Client.invoke (JS.boolean true) Client.remote_answer_set
                          (Client.fresh_peer 0 JS.undefined "b") "v=1" Client.initial))
      = [m]
    ∧ deliveries (Relay.step (JS.boolean true) sg
                             (Relay.message (Relay.Socket "a") m)).2
      = [Relay.emit (Relay.Socket "b") m']
    ∧ Client.on_message (JS.boolean true) m' Client.initial
      = Client.returned tt Client.initial out
    ∧ Client.notifications out = [Client.peerconnected (Relay.id (Relay.Socket "a"))]
    ∧ Client.sent out = [].
Proof.
  apply (peerconnected_is_published_on_both_sides (JS.boolean true) (JS.boolean true)
           (JS.boolean true)
           (Relay.Signaller "default" [Relay.Socket "a"; Relay.Socket "b"])
           (Relay.Socket "a") (Relay.Socket "b")
           (Client.fresh_peer 0 JS.undefined "b") "v=1" Client.initial Client.initial);
    reflexivity.
Defined.

Lemma stream_removal_is_published_at_the_peer_witness :
  let sg := Relay.Signaller "default" [Relay.Socket "a"; Relay.Socket "b"] in
  let sA := Client.State [Client.fresh_peer 0 JS.undefined "b"] (Some 1) 1 in
  ∃ sA' out m' sB' out',
    Client.removeLocalStream (JS.boolean true) sA = Client.returned tt sA' out
    ∧ Wire.streamremoved (Relay.id (Relay.Socket "b")) ∈ Client.sent out
    ∧ deliveries (Relay.step (JS.boolean true) sg
                    (Relay.message (Relay.Socket "a")
                       (Wire.streamremoved (Relay.id (Relay.Socket "b"))))).2
      = [Relay.emit (Relay.Socket "b") m']
    ∧ Client.on_message (JS.boolean true) m' Client.initial
      = Client.returned tt sB' out'
    ∧ Client.notifications out'
      = [Client.remoteStreamRemoved (Relay.id (Relay.Socket "a"))].
Proof.
  apply (stream_removal_is_published_at_the_peer (JS.boolean true) (JS.boolean true)
           (JS.boolean true)
           (Relay.Signaller "default" [Relay.Socket "a"; Relay.Socket "b"])
           (Relay.Socket "a") (Relay.Socket "b")
           (Client.fresh_peer 0 JS.undefined "b") 0 1
           (Client.State [Client.fresh_peer 0 JS.undefined "b"] (Some 1) 1)
           Client.initial);
    reflexivity.
Defined.

End ProtocolFacts.

(** ** The event emitter *)

Module EmitterFacts.
Import Emitter.

(** *** [indexOfListener] *)

(** The loop passes over a stretch without a match. *)
Lemma indexOfListener_loop_skip (l : list entry) (h : handler) : ∀ i j,
  j ≤ i → i ≤ length l →
  (∀ k e, j ≤ k < i → l !! k = Some e → is_listener e h = false) →
  indexOfListener_loop i l h = indexOfListener_loop j l h.
Proof.
  induction i as [|i IH]; intros j Hj Hi Hno.
  - by replace j with 0 by lia.
  - destruct (decide (j = S i)) as [->|Hne]; [done|]. simpl.
    destruct (lookup_lt_is_Some_2 l i) as [e He]; [lia|].
    rewrite He, (Hno i e) by (lia || done).
    apply IH; [lia|lia|]. intros k e' Hk. apply Hno. lia.
Qed.

Lemma indexOfListener_none (l : list entry) (f : fn) :
  f ∉ listener <$> l → indexOfListener l (function f) = None.
Proof.
  intros Hf. unfold indexOfListener.
  rewrite (indexOfListener_loop_skip l _ _ 0); [done|lia|done|].
  intros k e _ Hk. apply Nat.eqb_neq. intros <-.
  apply Hf, list_elem_of_fmap. exists e. split; [done|].
  by eapply list_elem_of_lookup_2.
Qed.


(** The index found is that of the last entry with the function. *)
Lemma indexOfListener_last (pre post : list entry) (e : entry) (f : fn) :
  listener e = f → f ∉ listener <$> post →
  indexOfListener (pre ++ e :: post) (function f) = Some (length pre).
Proof.
  intros He Hpost. unfold indexOfListener.
  rewrite (indexOfListener_loop_skip _ _ _ (S (length pre))).
  - simpl. rewrite list_lookup_middle by done. simpl.
    by rewrite He, Nat.eqb_refl.
  - rewrite length_app. simpl. lia.
  - done.
  - intros k e' Hk Hlook. apply Nat.eqb_neq. intros <-.
    apply Hpost, list_elem_of_fmap. exists e'. split; [done|].
    apply (list_elem_of_lookup_2 _ (k - S (length pre))).
    rewrite lookup_app_r in Hlook by lia.
    destruct (k - length pre) as [|n] eqn:Hn; [lia|].
    simpl in Hlook. by replace (k - S (length pre)) with n by lia.
Qed.

(** A listed function has a last entry. *)
Lemma last_entry (l : list entry) (f : fn) :
  f ∈ listener <$> l →
  ∃ pre e post, l = pre ++ e :: post ∧ listener e = f ∧ f ∉ listener <$> post.
Proof.
  induction l as [|x l IH]; [by intros ?%elem_of_nil|].
  intros Hin. destruct (decide (f ∈ listener <$> l)) as [Hl|Hl].
  - destruct (IH Hl) as (pre & e & post & -> & He & Hpost).
    by exists (x :: pre), e, post.
  - rewrite fmap_cons in Hin. apply elem_of_cons in Hin as [->|Hin]; [|done].
    by exists [], x, l.
Qed.

(** *** The table of events *)

Lemma listeners_of_getListeners em evt :
  (getListeners em evt).2 = listeners_of em evt
  ∧ _events (getListeners em evt).1 !! evt = Some (listeners_of em evt)
  ∧ (∀ evt', evt' ≠ evt →
       _events (getListeners em evt).1 !! evt' = _events em !! evt')
  ∧ _onceReturnValue (getListeners em evt).1 = _onceReturnValue em.
Proof.
  unfold getListeners, listeners_of.
  destruct (_events em !! evt) as [l|] eqn:Hl; simpl.
  - by rewrite Hl.
  - rewrite lookup_insert_eq. split; [done|]. split; [done|]. split; [|done].
    intros evt' Hne. by rewrite lookup_insert_ne.
Qed.

Lemma getListeners_defined em evt l :
  _events em !! evt = Some l → getListeners em evt = (em, l).
Proof. intros Hl. unfold getListeners. by rewrite Hl. Qed.

Lemma removeListener_at em evt pre e post f :
  _events em !! evt = Some (pre ++ e :: post) →
  listener e = f → f ∉ listener <$> post →
  removeListener em evt (function f)
  = Emitter (<[evt := pre ++ post]> (_events em)) (_onceReturnValue em).
Proof.
  intros Hl He Hpost. unfold removeListener.
  rewrite (getListeners_defined _ _ _ Hl), indexOfListener_last by done.
  by rewrite delete_middle.
Qed.

Lemma removeListener_miss em evt l f :
  _events em !! evt = Some l → f ∉ listener <$> l →
  removeListener em evt (function f) = em.
Proof.
  intros Hl Hf. unfold removeListener.
  by rewrite (getListeners_defined _ _ _ Hl), indexOfListener_none.
Qed.

Lemma listeners_of_insert em evt l v :
  listeners_of (Emitter (<[evt := l]> (_events em)) v) evt = l.
Proof. unfold listeners_of. simpl. by rewrite lookup_insert_eq. Qed.

Lemma listeners_of_insert_ne em evt evt' l v :
  evt' ≠ evt →
  listeners_of (Emitter (<[evt := l]> (_events em)) v) evt' = listeners_of em evt'.
Proof. intros Hne. unfold listeners_of. simpl. by rewrite lookup_insert_ne. Qed.

(** [addListener] of a function, by cases. *)
Lemma addListener_function em evt f :
  (f ∈ listener <$> listeners_of em evt → addListener em evt (function f) = em)
  ∧ (f ∉ listener <$> listeners_of em evt →
     addListener em evt (function f)
     = Emitter (<[evt := listeners_of em evt ++ [Entry f false]]> (_events em))
               (_onceReturnValue em)).
Proof.
  unfold addListener, getListeners, listeners_of.
  destruct (_events em !! evt) as [l|] eqn:Hl; simpl; split.
  - intros (pre & e & post & -> & He & Hpost)%last_entry.
    by rewrite indexOfListener_last.
  - intros Hf. by rewrite indexOfListener_none.
  - by intros ?%elem_of_nil.
  - intros _. by rewrite insert_insert_eq.
Qed.

(** [removeListener] of a function, by cases. *)
Lemma removeListener_function em evt f :
  (f ∉ listener <$> listeners_of em evt →
   ∀ evt', listeners_of (removeListener em evt (function f)) evt'
           = listeners_of em evt')
  ∧ (∀ pre e post,
       listeners_of em evt = pre ++ e :: post →
       listener e = f → f ∉ listener <$> post →
       removeListener em evt (function f)
       = Emitter (<[evt := pre ++ post]> (_events em)) (_onceReturnValue em)).
Proof.
  split.
  - intros Hf evt'. unfold removeListener, getListeners.
    unfold listeners_of in Hf.
    destruct (_events em !! evt) as [l|] eqn:Hl; simpl in *.
    + by rewrite indexOfListener_none.
    + cbn. destruct (decide (evt' = evt)) as [->|Hne].
      * rewrite listeners_of_insert. unfold listeners_of. by rewrite Hl.
      * by rewrite listeners_of_insert_ne.
  - intros pre e post Hl He Hpost. apply (removeListener_at em evt pre e post f); [|done..].
    unfold listeners_of in Hl.
    destruct (_events em !! evt) as [l|]; simpl in Hl; [by rewrite Hl|].
    by destruct pre.
Qed.

(** *** Registration *)



(** [removeListener] takes out one entry, the last one listed with the
    function, and leaves the others in order; for a function that is
    not listed it changes no list. *)
Theorem removeListener_removes_last_entry (em : EventEmitter) (evt : string) (f : fn) :
  let em' := removeListener em evt (function f) in
  (∀ evt', evt' ≠ evt → listeners_of em' evt' = listeners_of em evt')
  ∧ (f ∉ listener <$> listeners_of em evt → listeners_of em' evt = listeners_of em evt)
  ∧ (∀ pre e post,
       listeners_of em evt = pre ++ e :: post →
       listener e = f → f ∉ listener <$> post →
       listeners_of em' evt = pre ++ post).
Proof.
  intros em'. unfold em'.
  destruct (removeListener_function em evt f) as [Hmiss Hat].
  split; [|split].
  - intros evt' Hne. destruct (decide (f ∈ listener <$> listeners_of em evt)) as [Hf|Hf].
    + destruct (last_entry _ _ Hf) as (pre & e & post & Hl & He & Hpost).
      rewrite (Hat pre e post) by done. by apply listeners_of_insert_ne.
    + by apply Hmiss.
  - intros Hf. by apply Hmiss.
  - intros pre e post Hl He Hpost. rewrite (Hat pre e post) by done.
    apply listeners_of_insert.
Qed.

(** Adding a function that is not listed and removing it again gives
    the list back; when the function was listed, [addListener] adds
    nothing and the removal takes out the entry that was there. *)
Theorem addListener_then_removeListener (em : EventEmitter) (evt : string) (f : fn) :
  let em' := removeListener (addListener em evt (function f)) evt (function f) in
  (f ∉ listener <$> listeners_of em evt → listeners_of em' evt = listeners_of em evt)
  ∧ (f ∈ listener <$> listeners_of em evt →
     length (listeners_of em' evt) < length (listeners_of em evt)).
Proof.
  intros em'. unfold em'. destruct (addListener_function em evt f) as [Hin Hout].
  split.
  - intros Hf. rewrite (Hout Hf).
    destruct (removeListener_function
                (Emitter (<[evt := listeners_of em evt ++ [Entry f false]]> (_events em))
                         (_onceReturnValue em)) evt f) as [_ Hat].
    rewrite (Hat (listeners_of em evt) (Entry f false) []).
    + rewrite listeners_of_insert. by rewrite app_nil_r.
    + by rewrite listeners_of_insert.
    + done.
    + by intros ?%elem_of_nil.
  - intros Hf. rewrite (Hin Hf).
    destruct (last_entry _ _ Hf) as (pre & e & post & Hl & He & Hpost).
    destruct (removeListener_function em evt f) as [_ Hat].
    rewrite (Hat pre e post) by done.
    rewrite listeners_of_insert, Hl, !length_app. simpl. lia.
Qed.

(** After [removeEvent] with a name, emitting under that name calls
    nobody and the other names keep their lists; after [removeEvent]
    without argument no name has a listener. *)
Theorem removeEvent_silences (respond : fn → list JS.value → JS.value)
    (em : EventEmitter) (evt : string) (args : list JS.value) :
  listeners_of (removeEvent em (Some evt)) evt = []
  ∧ (∀ evt', evt' ≠ evt →
       listeners_of (removeEvent em (Some evt)) evt' = listeners_of em evt')
  ∧ (∀ evt', listeners_of (removeEvent em None) evt' = [])
  ∧ (∃ em', emitEvent respond (removeEvent em (Some evt)) evt args = finished em' [])
  ∧ (∃ em', emitEvent respond (removeEvent em None) evt args = finished em' []).
Proof.
  unfold listeners_of, emitEvent, getListeners. simpl.
  rewrite lookup_delete_eq, lookup_empty. simpl.
  split; [done|]. split; [intros evt' Hne; by rewrite lookup_delete_ne|].
  split; [intros evt'; by rewrite lookup_empty|]. split; by eexists.
Qed.

(** *** Emitting *)

Section Emit.
Variable respond : fn → list JS.value → JS.value.

Lemma stays_same em1 em2 args e :
  _onceReturnValue em1 = _onceReturnValue em2 →
  stays respond em1 args e = stays respond em2 args e.
Proof. intros H. unfold stays, _getOnceReturnValue. by rewrite H. Qed.

(** The loop over a list without a function twice: the entries not
    yet visited are [pre], those visited and kept are [post]. *)
Lemma emit_loop_spec evt args (pre : list entry) : ∀ post em,
  _events em !! evt = Some (pre ++ post) →
  NoDup (listener <$> pre ++ post) →
  ∃ em',
    emit_loop respond (length pre) evt args em
    = finished em' (reverse ((λ e, (listener e, args)) <$> pre))
    ∧ _events em' = <[evt := List.filter (stays respond em args) pre ++ post]> (_events em)
    ∧ _onceReturnValue em' = _onceReturnValue em.
Proof.
  induction pre as [|e pre IH] using rev_ind; intros post em Hl Hnodup.
  - exists em. simpl. split; [done|]. split; [|done].
    symmetry. by apply insert_id.
  - rewrite length_app, Nat.add_1_r. cbn [emit_loop length].
    rewrite <-app_assoc in Hl. simpl in Hl.
    rewrite Hl. cbn [from_option id]. rewrite list_lookup_middle by done.
    rewrite <-app_assoc, fmap_app in Hnodup. simpl in Hnodup.
    assert (listener e ∉ listener <$> post) as Hpost.
    { apply NoDup_app in Hnodup as (_ & _ & Hn).
      by apply NoDup_cons in Hn as [? _]. }
    assert (listener e ∉ listener <$> pre ++ post) as Hrest.
    { rewrite fmap_app. intros [Hin|Hin]%elem_of_app; [|done].
      apply NoDup_app in Hnodup as (_ & Hdis & _).
      apply (Hdis _ Hin). left. }
    assert (NoDup (listener <$> pre ++ post)) as Hnodup'.
    { rewrite fmap_app. apply NoDup_app in Hnodup as (Hpre & Hdis & Hn).
      apply NoDup_cons in Hn as [_ Hn]. apply NoDup_app.
      split; [done|]. split; [|done].
      intros x Hx Hx'. apply (Hdis x Hx). by right. }
    set (removed := Emitter (<[evt := pre ++ post]> (_events em)) (_onceReturnValue em)).
    assert (removeListener em evt (function (listener e)) = removed) as Hrm
      by (by apply (removeListener_at em evt pre e post)).
    assert (removeListener removed evt (function (listener e)) = removed) as Hrm'.
    { apply (removeListener_miss _ _ (pre ++ post)); [|done].
      unfold removed. simpl. by rewrite lookup_insert_eq. }
    assert (_getOnceReturnValue removed = _getOnceReturnValue em) as Hv by done.
    rewrite (fmap_app _ pre [e]), reverse_app. simpl.
    rewrite List.filter_app. simpl. unfold stays at 2.
    destruct (once e) eqn:Honce; simpl.
    + rewrite Hrm, Hv.
      assert (∃ em2,
        (if bool_decide (respond (listener e) args = _getOnceReturnValue em)
         then removeListener removed evt (function (listener e)) else removed) = em2
        ∧ em2 = removed) as (em2 & -> & ->).
      { eexists. split; [done|]. by destruct (bool_decide _). }
      destruct (IH post removed) as (em' & -> & Hev & Hov); [|done|].
      { unfold removed. simpl. by rewrite lookup_insert_eq. }
      exists em'. split; [done|]. split; [|done].
      rewrite Hev. unfold removed. simpl.
      by rewrite insert_insert_eq, app_nil_r.
    + destruct (bool_decide (respond (listener e) args = _getOnceReturnValue em))
        eqn:Hresp; simpl.
      * rewrite Hrm.
        destruct (IH post removed) as (em' & -> & Hev & Hov); [|done|].
        { unfold removed. simpl. by rewrite lookup_insert_eq. }
        exists em'. split; [done|]. split; [|done].
        rewrite Hev. unfold removed. simpl.
        by rewrite insert_insert_eq, app_nil_r.
      * destruct (IH (e :: post) em) as (em' & -> & Hev & Hov);
          [done|by rewrite fmap_app|].
        exists em'. split; [done|]. split; [|done].
        rewrite Hev. by rewrite <-app_assoc.
Qed.

(** Under a name whose list has no function twice, [emitEvent] runs
    to its end: it calls the function of every entry once with the
    arguments given, the entry listed last first, and leaves listed,
    in their order, the entries that are not once listeners and whose
    function did not answer with the once-return value. No other name
    is affected. *)
Theorem emitEvent_calls_every_listener (em : EventEmitter) (evt : string)
    (args : list JS.value) :
  NoDup (listener <$> listeners_of em evt) →
  ∃ em',
    emitEvent respond em evt args
    = finished em' (reverse ((λ e, (listener e, args)) <$> listeners_of em evt))
    ∧ listeners_of em' evt = List.filter (stays respond em args) (listeners_of em evt)
    ∧ (∀ evt', evt' ≠ evt → listeners_of em' evt' = listeners_of em evt')
    ∧ _onceReturnValue em' = _onceReturnValue em.
Proof.
  intros Hnodup. unfold emitEvent.
  destruct (listeners_of_getListeners em evt) as (Hl & Hev & Hother & Hov).
  destruct (getListeners em evt) as [em1 l]. simpl in *. subst l.
  destruct (emit_loop_spec evt args (listeners_of em evt) [] em1)
    as (em' & -> & Hev' & Hov').
  { by rewrite app_nil_r. }
  { by rewrite app_nil_r. }
  exists em'. split; [done|]. rewrite app_nil_r in Hev'.
  split; [|split].
  - unfold listeners_of at 1. rewrite Hev', lookup_insert_eq. simpl.
    apply List.filter_ext. intros x. by apply stays_same.
  - intros evt' Hne. unfold listeners_of.
    by rewrite Hev', lookup_insert_ne, Hother.
  - congruence.
Qed.

(** A function listed twice at the end of a list, the last time as a
    once listener, and answering with the once-return value: the one
    call removes both entries, the loop goes on to the index of the
    first, finds nothing there and stops on reading [once] of
    [undefined]. The listeners before are not called. *)
Theorem emitEvent_throws_on_repeated_listener (em : EventEmitter) (evt : string)
    (args : list JS.value) (pre : list entry) (e : entry) (f : fn) :
  listeners_of em evt = pre ++ [e; Entry f true] →
  listener e = f →
  respond f args = _getOnceReturnValue em →
  ∃ em',
    emitEvent respond em evt args = type_error em' [(f, args)]
    ∧ listeners_of em' evt = pre.
Proof.
  intros Hl He Hresp. unfold emitEvent.
  assert (_events em !! evt = Some (pre ++ [e; Entry f true])) as Hev.
  { unfold listeners_of in Hl.
    destruct (_events em !! evt) as [l|]; simpl in Hl; [by rewrite Hl|].
    by destruct pre. }
  rewrite (getListeners_defined _ _ _ Hev).
  rewrite length_app. cbn [length]. rewrite Nat.add_comm. cbn [Nat.add emit_loop].
  rewrite Hev. cbn [from_option id].
  replace (pre ++ [e; Entry f true]) with ((pre ++ [e]) ++ Entry f true :: [])
    in * by (by rewrite <-app_assoc).
  replace (S (length pre)) with (length (pre ++ [e]))
    by (rewrite length_app; simpl; lia).
  rewrite list_lookup_middle by done. cbn [once listener].
  rewrite (removeListener_at em evt (pre ++ [e]) (Entry f true) [] f Hev)
    by (done || by intros ?%elem_of_nil).
  rewrite app_nil_r.
  set (em1 := Emitter (<[evt := pre ++ [e]]> (_events em)) (_onceReturnValue em)).
  assert (_getOnceReturnValue em1 = _getOnceReturnValue em) as -> by done.
  rewrite Hresp, bool_decide_eq_true_2 by done.
  rewrite (removeListener_at em1 evt pre e [] f);
    [|unfold em1; simpl; by rewrite lookup_insert_eq|done|by intros ?%elem_of_nil].
  rewrite app_nil_r. unfold em1. cbn [_events _onceReturnValue].
  rewrite insert_insert_eq, lookup_insert_eq. cbn [from_option id].
  rewrite lookup_ge_None_2 by done.
  eexists. split; [done|]. apply listeners_of_insert.
Qed.

End Emit.

(** A plain listener added after a once listener: both are called, the
    later one first, and the plain one stays. *)
Lemma emitEvent_calls_every_listener_witness :
  let em := addListener (addOnceListener (Emitter ∅ None) "remoteStreamAdded" 1)
                        "remoteStreamAdded" (function 2) in
  NoDup (listener <$> listeners_of em "remoteStreamAdded")
  ∧ ∃ em', emitEvent (λ _ _, JS.undefined) em "remoteStreamAdded" [JS.str "stream"]
           = finished em' [(2, [JS.str "stream"]); (1, [JS.str "stream"])]
           ∧ listeners_of em' "remoteStreamAdded" = [Entry 2 false].
Proof.
  cbv zeta.
  assert (NoDup (listener <$> listeners_of
                   (addListener (addOnceListener (Emitter ∅ None) "remoteStreamAdded" 1)
                                "remoteStreamAdded" (function 2))
                   "remoteStreamAdded")) as Hnodup.
  { apply (bool_decide_unpack _). by vm_compute. }
  split; [exact Hnodup|].
  destruct (emitEvent_calls_every_listener (λ _ _, JS.undefined) _ _
              [JS.str "stream"] Hnodup) as (em' & Hemit & Hleft & _).
  exists em'. split; [exact Hemit|exact Hleft].
Defined.

(** The same function registered twice with [once], answering [true]. *)
Lemma emitEvent_throws_on_repeated_listener_witness :
  let em := addOnceListener (addOnceListener (Emitter ∅ None) "peerconnected" 1)
                            "peerconnected" 1 in
  ∃ em', emitEvent (λ _ _, JS.boolean true) em "peerconnected" []
         = type_error em' [(1, [])]
         ∧ listeners_of em' "peerconnected" = [].
Proof.
  cbv zeta.
  apply (emitEvent_throws_on_repeated_listener (λ _ _, JS.boolean true)
           (addOnceListener (addOnceListener (Emitter ∅ None) "peerconnected" 1)
                            "peerconnected" 1)
           "peerconnected" [] [] (Entry 1 true) 1).
  - reflexivity.
  - reflexivity.
  - reflexivity.
Defined.

End EmitterFacts.
